(** * A shallow embedding of the FARP Rust crate (farp-rust)

    The development follows the crate module by module:
    - [version.rs]: protocol version and [is_compatible];
    - [manifest.rs]: descriptor and manifest validation, manifest checksum;
    - [registry/memory.rs]: the in-memory registry as explicit state passing;
    - [gateway/client.rs]: the gateway client caches and the OpenAPI route
      conversion;
    - [merger/openapi.rs] and [merger/mod.rs]: the OpenAPI merger.

    Strings are byte strings ([string] of [ascii]); Rust's [str::len] is
    [String.length].  A [HashMap<String, _>] is a [gmap string _]; where the
    code iterates over a hash map, the iteration order is the one of
    [map_to_list] (the Rust order is unspecified).  The SHA-256 digest of
    the [sha2] crate followed by [hex::encode] is a parameter
    [sha256_hex] of the development. *)

From Stdlib Require Import ZArith Lia Ascii String Sorting.Permutation Sorting.Sorted.
From stdpp Require Import base gmap list strings sets.

Open Scope string_scope.
Set Warnings "-register-all".

(** ** JSON values ([serde_json::Value]) *)

(** An object is its list of entries in the map's iteration order.  Numbers
    are kept as integers: no claim depends on their representation. *)
Inductive json : Type :=
| JNull
| JBool (b : bool)
| JNum (n : Z)
| JStr (s : string)
| JArr (xs : list json)
| JObj (kvs : list (string * json)).

Fixpoint assoc_get {A} (k : string) (kvs : list (string * A)) : option A :=
  match kvs with
  | [] => None
  | (k', v) :: r => if String.eqb k k' then Some v else assoc_get k r
  end.

(** [Value::get] on a string key: [None] unless the value is an object. *)
Definition json_get (k : string) (v : json) : option json :=
  match v with JObj kvs => assoc_get k kvs | _ => None end.

Definition as_object (v : json) : option (list (string * json)) :=
  match v with JObj kvs => Some kvs | _ => None end.

Definition as_str (v : json) : option string :=
  match v with JStr s => Some s | _ => None end.

Definition as_array (v : json) : option (list json) :=
  match v with JArr xs => Some xs | _ => None end.

Definition as_bool (v : json) : option bool :=
  match v with JBool b => Some b | _ => None end.

(** ** Errors ([errors.rs]) and the [Result] monad *)

Inductive Error : Type :=
| IncompatibleVersion (manifest_version protocol_version : string)
| Validation (field message : string)
| InvalidManifest (message : string)
(** [Error::invalid_manifest(format!("invalid schema at index {i}: {e}"))] *)
| InvalidSchemaAt (index : nat) (source : Error)
| ChecksumMismatch (expected actual : string)
| UnsupportedType
| InvalidLocation (message : string)
| InvalidSchema (message : string)
| BackendUnavailable (message : string)
| ManifestNotFound
| SchemaNotFound
| SchemaFetchFailed (message : string)
| Custom (message : string).

Inductive Result (A : Type) : Type :=
| Ok (a : A)
| Err (e : Error).
Arguments Ok {A} a.
Arguments Err {A} e.

(** [x ← e; k] (stdpp's monad notation) is Rust's [let x = e?; k]. *)
#[global] Instance result_mbind : MBind Result :=
  fun A B f r => match r with Ok a => f a | Err e => Err e end.
#[global] Instance result_mret : MRet Result := fun A a => Ok a.

(** ** [version.rs] *)

Module Version.

Definition PROTOCOL_VERSION : string := "1.0.0".
Definition PROTOCOL_MAJOR : Z := 1.
Definition PROTOCOL_MINOR : Z := 0.
Definition PROTOCOL_PATCH : Z := 0.
Definition U32_MAX : Z := 4294967295.

(** [str::split('.')]: the empty string gives one empty segment. *)
Fixpoint split_dot (s : string) : list string :=
  match s with
  | EmptyString => [""]
  | String c r =>
      let rest := split_dot r in
      if Ascii.eqb c "."%char then "" :: rest
      else match rest with
           | h :: t => String c h :: t
           | [] => [String c ""]
           end
  end.

Definition digit_value (c : Ascii.ascii) : option Z :=
  let n := Z.of_N (Ascii.N_of_ascii c) in
  if (48 <=? n)%Z && (n <=? 57)%Z then Some (n - 48)%Z else None.

(** The digit loop of [u32::from_str_radix(_, 10)] with its
    [checked_mul] / [checked_add] overflow checks. *)
Fixpoint parse_digits (s : string) (acc : Z) : option Z :=
  match s with
  | EmptyString => Some acc
  | String c r =>
      match digit_value c with
      | None => None
      | Some d =>
          let m := (acc * 10)%Z in
          if (U32_MAX <? m)%Z then None
          else let a := (m + d)%Z in
               if (U32_MAX <? a)%Z then None else parse_digits r a
      end
  end.

(** [<u32 as FromStr>::from_str]: empty input and a lone sign are errors;
    a leading [+] is accepted; [-] is an invalid digit for an unsigned
    type. *)
Definition parse_u32 (s : string) : option Z :=
  match s with
  | EmptyString => None
  | String "+"%char EmptyString => None
  | String "-"%char EmptyString => None
  | String "+"%char r => parse_digits r 0
  | _ => parse_digits s 0
  end.

Definition is_compatible (manifest_version : string) : bool :=
  let parts := split_dot manifest_version in
  if negb (Nat.eqb (List.length parts) 3) then false
  else
    match parse_u32 (nth 0 parts ""), parse_u32 (nth 1 parts "") with
    | Some major, Some minor =>
        if negb (Z.eqb major PROTOCOL_MAJOR) then false
        else (minor <=? PROTOCOL_MINOR)%Z
    | _, _ => false
    end.

End Version.

Example is_compatible_doc :
  Version.is_compatible "1.0.0" = true /\ Version.is_compatible "1.0.1" = true /\
  Version.is_compatible "2.0.0" = false /\ Version.is_compatible "0.9.0" = false /\
  Version.is_compatible "1.1.0" = false /\ Version.is_compatible "1.0" = false /\
  Version.is_compatible "invalid" = false /\ Version.is_compatible "" = false.
Proof. vm_compute. repeat split. Qed.

(** ** [types.rs]: the manifest data model (fields no claim reads are left out) *)

Inductive SchemaType := OpenAPI | AsyncAPI | GRPC | GraphQL | ORPC | Thrift | Avro | CustomType.

Definition SchemaType_is_valid (t : SchemaType) : bool := true.

Definition SchemaType_as_str (t : SchemaType) : string :=
  match t with
  | OpenAPI => "openapi" | AsyncAPI => "asyncapi" | GRPC => "grpc"
  | GraphQL => "graphql" | ORPC => "orpc" | Thrift => "thrift"
  | Avro => "avro" | CustomType => "custom"
  end.

Inductive LocationType := HTTP | Registry | Inline.

Definition LocationType_is_valid (t : LocationType) : bool := true.

Inductive ConflictStrategy := Prefix | ErrorStrategy | Skip | Overwrite | Merge.

Inductive MountStrategy := Root | Instance | Service | Versioned | CustomMount | Subdomain.

Record CompositionConfig := {
  include_in_merged : bool;
  component_prefix : option string;
  tag_prefix : option string;
  operation_id_prefix : option string;
  conflict_strategy : ConflictStrategy;
}.

Record OpenAPIMetadata := { composition : option CompositionConfig }.

Record ProtocolMetadata := { pm_openapi : option OpenAPIMetadata }.

Record SchemaLocation := {
  location_type : LocationType;
  url : option string;
  registry_path : option string;
}.

Record SchemaDescriptor := {
  schema_type : SchemaType;
  spec_version : string;
  location : SchemaLocation;
  content_type : string;
  inline_schema : option json;
  hash : string;
  size : Z;
  sd_metadata : option ProtocolMetadata;
}.

Record SchemaEndpoints := {
  health : string;
  graphql : option string;
}.

Record RoutingConfig := {
  strategy : MountStrategy;
  base_path : option string;
}.

Record SchemaManifest := {
  version : string;
  service_name : string;
  service_version : string;
  instance_id : string;
  schemas : list SchemaDescriptor;
  endpoints : SchemaEndpoints;
  routing : RoutingConfig;
  checksum : string;
}.

(** ** [manifest.rs] *)

Module Manifest.

Section Checksum.

(** [hex::encode(Sha256::digest(s.as_bytes()))] *)
Variable sha256_hex : string -> string.

Definition validate_schema_location (sl : SchemaLocation) : Result unit :=
  if negb (LocationType_is_valid (location_type sl)) then
    Err (InvalidLocation "invalid location type")
  else
    match location_type sl with
    | HTTP =>
        match url sl with
        | None | Some "" => Err (InvalidLocation "URL required for HTTP location")
        | Some _ => Ok ()
        end
    | Registry =>
        match registry_path sl with
        | None | Some "" =>
            Err (InvalidLocation "registry path required for registry location")
        | Some _ => Ok ()
        end
    | Inline => Ok ()
    end.

Definition is_empty (s : string) : bool := String.eqb s "".

Definition validate_schema_descriptor (sd : SchemaDescriptor) : Result unit :=
  if negb (SchemaType_is_valid (schema_type sd)) then Err UnsupportedType
  else if is_empty (spec_version sd) then
    Err (Validation "spec_version" "spec version is required")
  else
    _ ← validate_schema_location (location sd);
    if (match location_type (location sd), inline_schema sd with
        | Inline, None => true | _, _ => false end) then
      Err (Validation "inline_schema" "inline schema is required for inline location type")
    else if is_empty (hash sd) then
      Err (Validation "hash" "schema hash is required")
    else if negb (Nat.eqb (String.length (hash sd)) 64) then
      Err (Validation "hash" "invalid hash format (expected 64 hex characters)")
    else if is_empty (content_type sd) then
      Err (Validation "content_type" "content type is required")
    else Ok ().

(** [slice::sort_by] is a stable sort; a stable insertion sort computes the
    same permutation. *)
Fixpoint insert_by_type (d : SchemaDescriptor) (l : list SchemaDescriptor)
  : list SchemaDescriptor :=
  match l with
  | [] => [d]
  | d' :: r =>
      match String.compare (SchemaType_as_str (schema_type d))
                           (SchemaType_as_str (schema_type d')) with
      | Lt => d :: d' :: r
      | _ => d' :: insert_by_type d r
      end
  end.

Fixpoint sort_by_type_aux (acc : list SchemaDescriptor) (l : list SchemaDescriptor)
  : list SchemaDescriptor :=
  match l with
  | [] => acc
  | d :: r => sort_by_type_aux (insert_by_type d acc) r
  end.

Definition sort_by_type (l : list SchemaDescriptor) : list SchemaDescriptor :=
  sort_by_type_aux [] l.

Definition calculate_manifest_checksum (manifest : SchemaManifest) : Result string :=
  match schemas manifest with
  | [] => Ok ""
  | _ =>
      let sorted_schemas := sort_by_type (schemas manifest) in
      let combined := String.concat "" (List.map hash sorted_schemas) in
      Ok (sha256_hex combined)
  end.

Fixpoint validate_descriptors (i : nat) (l : list SchemaDescriptor) : Result unit :=
  match l with
  | [] => Ok ()
  | sd :: r =>
      match validate_schema_descriptor sd with
      | Err e => Err (InvalidSchemaAt i e)
      | Ok _ => validate_descriptors (S i) r
      end
  end.

Definition validate (m : SchemaManifest) : Result unit :=
  if negb (Version.is_compatible (version m)) then
    Err (IncompatibleVersion (version m) Version.PROTOCOL_VERSION)
  else if is_empty (service_name m) then
    Err (Validation "service_name" "service name is required")
  else if is_empty (instance_id m) then
    Err (Validation "instance_id" "instance ID is required")
  else if is_empty (health (endpoints m)) then
    Err (Validation "endpoints.health" "health endpoint is required")
  else
    _ ← validate_descriptors 0 (schemas m);
    if negb (is_empty (checksum m)) then
      expected ← calculate_manifest_checksum m;
      if negb (String.eqb (checksum m) expected) then
        Err (ChecksumMismatch expected (checksum m))
      else Ok ()
    else Ok ().

End Checksum.

(** [new_manifest]: [SchemaEndpoints::default()] has an empty [health]
    and [RoutingConfig::default()] has the default mount strategy
    [Instance]; the wall-clock [updated_at] is left out. *)
Definition new_manifest (svc ver id : string) : SchemaManifest :=
  {| version := Version.PROTOCOL_VERSION; service_name := svc; service_version := ver;
     instance_id := id; schemas := [];
     endpoints := {| health := ""; graphql := None |};
     routing := {| strategy := Instance; base_path := None |};
     checksum := "" |}.

Definition set_checksum (m : SchemaManifest) (c : string) : SchemaManifest :=
  {| version := version m; service_name := service_name m;
     service_version := service_version m; instance_id := instance_id m;
     schemas := schemas m; endpoints := endpoints m; routing := routing m;
     checksum := c |}.

(** [SchemaManifest::add_schema] *)
Definition add_schema (m : SchemaManifest) (d : SchemaDescriptor) : SchemaManifest :=
  {| version := version m; service_name := service_name m;
     service_version := service_version m; instance_id := instance_id m;
     schemas := app (schemas m) [d]; endpoints := endpoints m; routing := routing m;
     checksum := checksum m |}.

(** The derived [PartialEq] of [SchemaType]. *)
Definition SchemaType_eqb (a b : SchemaType) : bool :=
  match a, b with
  | OpenAPI, OpenAPI | AsyncAPI, AsyncAPI | GRPC, GRPC | GraphQL, GraphQL
  | ORPC, ORPC | Thrift, Thrift | Avro, Avro | CustomType, CustomType => true
  | _, _ => false
  end.

(** [SchemaManifest::get_schema]: [Iterator::find]. *)
Definition get_schema (m : SchemaManifest) (t : SchemaType) : option SchemaDescriptor :=
  List.find (fun s => SchemaType_eqb (schema_type s) t) (schemas m).

(** [SchemaManifest::add_capability] and [has_capability], on the
    manifest's [capabilities] vector (a field the record above leaves out:
    these two functions are the only ones that touch it). *)
Definition add_capability (capabilities : list string) (cap : string) : list string :=
  if List.existsb (String.eqb cap) capabilities then capabilities
  else app capabilities [cap].

Definition has_capability (capabilities : list string) (cap : string) : bool :=
  List.existsb (fun c => String.eqb c cap) capabilities.

Section Update.

Variable sha256_hex : string -> string.

(** [SchemaManifest::update_checksum]; [updated_at] is left out. *)
Definition update_checksum (m : SchemaManifest) : Result SchemaManifest :=
  c ← calculate_manifest_checksum sha256_hex m;
  Ok (set_checksum m c).

End Update.

End Manifest.

(** ** [manifest.rs]: [diff_manifests] *)

Module Diff.

(** [SchemaType] derives [Eq] and [Hash]: it keys the [HashMap]s of
    [diff_manifests]. *)
#[global] Instance SchemaType_eq_decision : EqDecision SchemaType.
Proof. intros a b. destruct a, b; (left; reflexivity) || (right; discriminate). Defined.

Definition SchemaType_to_nat (t : SchemaType) : nat :=
  match t with
  | OpenAPI => 0 | AsyncAPI => 1 | GRPC => 2 | GraphQL => 3
  | ORPC => 4 | Thrift => 5 | Avro => 6 | CustomType => 7
  end.

Definition SchemaType_of_nat (n : nat) : SchemaType :=
  match n with
  | 0 => OpenAPI | 1 => AsyncAPI | 2 => GRPC | 3 => GraphQL
  | 4 => ORPC | 5 => Thrift | 6 => Avro | _ => CustomType
  end.

#[global] Instance SchemaType_countable : Countable SchemaType.
Proof.
  apply (inj_countable' SchemaType_to_nat SchemaType_of_nat).
  intros []; reflexivity.
Defined.

Record SchemaChangeDiff := {
  change_schema_type : SchemaType;
  old_hash : string;
  new_hash : string;
}.

Record ManifestDiff := {
  schemas_added : list SchemaDescriptor;
  schemas_removed : list SchemaDescriptor;
  schemas_changed : list SchemaChangeDiff;
  capabilities_added : list string;
  capabilities_removed : list string;
  endpoints_changed : bool;
}.

Definition is_nil {A} (l : list A) : bool := match l with [] => true | _ => false end.

(** [ManifestDiff::has_changes] *)
Definition has_changes (d : ManifestDiff) : bool :=
  negb (is_nil (schemas_added d)) || negb (is_nil (schemas_removed d))
  || negb (is_nil (schemas_changed d)) || negb (is_nil (capabilities_added d))
  || negb (is_nil (capabilities_removed d)) || endpoints_changed d.

(** [schemas.iter().map(|s| (s.schema_type, s)).collect::<HashMap<_, _>>()]:
    a later descriptor of a type replaces an earlier one. *)
Definition schema_map (l : list SchemaDescriptor) : gmap SchemaType SchemaDescriptor :=
  fold_left (fun m s => <[schema_type s := s]> m) l ∅.

(** The derived [PartialEq] of [SchemaEndpoints], on the fields the record
    keeps. *)
Definition endpoints_eqb (a b : SchemaEndpoints) : bool :=
  String.eqb (health a) (health b) &&
  match graphql a, graphql b with
  | Some x, Some y => String.eqb x y
  | None, None => true
  | _, _ => false
  end.

(** [diff_manifests old new]; [old_caps] and [new_caps] are the two
    manifests' [capabilities]. *)
Definition diff_manifests (old new : SchemaManifest) (old_caps new_caps : list string)
  : ManifestDiff :=
  let old_schemas := schema_map (schemas old) in
  let new_schemas := schema_map (schemas new) in
  let '(added, changed) :=
    fold_left (fun '(a, c) '(t, ns) =>
                 match old_schemas !! t with
                 | Some os =>
                     if negb (String.eqb (hash os) (hash ns))
                     then (a, app c [{| change_schema_type := t; old_hash := hash os;
                                        new_hash := hash ns |}])
                     else (a, c)
                 | None => (app a [ns], c)
                 end)
              (map_to_list new_schemas) ([], []) in
  let removed :=
    fold_left (fun r '(t, os) =>
                 match new_schemas !! t with Some _ => r | None => app r [os] end)
              (map_to_list old_schemas) [] in
  let old_set : gset string := list_to_set old_caps in
  let new_set : gset string := list_to_set new_caps in
  {| schemas_added := added;
     schemas_removed := removed;
     schemas_changed := changed;
     capabilities_added := List.filter (fun c => negb (bool_decide (c ∈ old_set))) (elements new_set);
     capabilities_removed := List.filter (fun c => negb (bool_decide (c ∈ new_set))) (elements old_set);
     endpoints_changed := negb (endpoints_eqb (endpoints old) (endpoints new)) |}.

End Diff.

(** ** [registry/memory.rs]: the in-memory registry *)

Module Memory.

Inductive EventType := Added | Updated | Removed.

(** [ManifestEvent]; the wall-clock [timestamp] is left out. *)
Record ManifestEvent := {
  event_type : EventType;
  ev_manifest : SchemaManifest;
}.

(** A watcher is the sending half of an unbounded channel, named here by a
    number; the task draining the receiving half is not modelled. *)
Definition Sender := nat.

(** [RegistryInner]: the three maps and the [closed] flag; [next_sender]
    names the next channel [watch_manifests] creates. *)
Record RegistryState := {
  manifests : gmap string SchemaManifest;
  reg_schemas : gmap string json;
  watchers : gmap string (list Sender);
  closed : bool;
  next_sender : Sender;
}.

Definition new_registry : RegistryState :=
  {| manifests := ∅; reg_schemas := ∅; watchers := ∅; closed := false; next_sender := 0 |}.

Definition set_manifests (st : RegistryState) (m : gmap string SchemaManifest) :=
  {| manifests := m; reg_schemas := reg_schemas st; watchers := watchers st;
     closed := closed st; next_sender := next_sender st |}.

Definition set_schemas (st : RegistryState) (s : gmap string json) :=
  {| manifests := manifests st; reg_schemas := s; watchers := watchers st;
     closed := closed st; next_sender := next_sender st |}.

(** An event sent on a channel. *)
Definition Delivery := (Sender * ManifestEvent)%type.

(** The result of an operation, the state after it, and the events it sent
    (in sending order). *)
Definition Outcome (A : Type) := (Result A * RegistryState * list Delivery)%type.

Definition backend_closed {A} (st : RegistryState) : Outcome A :=
  (Err (BackendUnavailable "registry is closed"), st, []).

Definition notify_watchers (st : RegistryState) (svc : string) (ev : ManifestEvent)
  : list Delivery :=
  app (List.map (fun s => (s, ev)) (default [] (watchers st !! svc)))
      (List.map (fun s => (s, ev)) (default [] (watchers st !! ""))).

Section Ops.

Variable sha256_hex : string -> string.

Definition register_manifest (st : RegistryState) (m : SchemaManifest) : Outcome unit :=
  if closed st then backend_closed st
  else match Manifest.validate sha256_hex m with
       | Err e => (Err e, st, [])
       | Ok _ =>
           let st' := set_manifests st (<[instance_id m := m]> (manifests st)) in
           let ev := {| event_type := Added; ev_manifest := m |} in
           (Ok (), st', notify_watchers st' (service_name m) ev)
       end.

Definition get_manifest (st : RegistryState) (id : string) : Result SchemaManifest :=
  match manifests st !! id with
  | Some m => Ok m
  | None => Err ManifestNotFound
  end.

Definition update_manifest (st : RegistryState) (m : SchemaManifest) : Outcome unit :=
  if closed st then backend_closed st
  else match Manifest.validate sha256_hex m with
       | Err e => (Err e, st, [])
       | Ok _ =>
           if negb (bool_decide (is_Some (manifests st !! instance_id m))) then
             (Err ManifestNotFound, st, [])
           else
             let st' := set_manifests st (<[instance_id m := m]> (manifests st)) in
             let ev := {| event_type := Updated; ev_manifest := m |} in
             (Ok (), st', notify_watchers st' (service_name m) ev)
       end.

End Ops.

Definition delete_manifest (st : RegistryState) (id : string) : Outcome unit :=
  if closed st then backend_closed st
  else match manifests st !! id with
       | None => (Err ManifestNotFound, st, [])
       | Some m =>
           let st' := set_manifests st (delete id (manifests st)) in
           let ev := {| event_type := Removed; ev_manifest := m |} in
           (Ok (), st', notify_watchers st' (service_name m) ev)
       end.

Definition list_manifests (st : RegistryState) (svc : string) : Result (list SchemaManifest) :=
  Ok (List.filter (fun m => Manifest.is_empty svc || String.eqb (service_name m) svc)
                  (List.map snd (map_to_list (manifests st)))).

Definition publish_schema (st : RegistryState) (path : string) (schema : json) : Outcome unit :=
  if closed st then backend_closed st
  else (Ok (), set_schemas st (<[path := schema]> (reg_schemas st)), []).

Definition fetch_schema (st : RegistryState) (path : string) : Result json :=
  match reg_schemas st !! path with
  | Some s => Ok s
  | None => Err SchemaNotFound
  end.

Definition delete_schema (st : RegistryState) (path : string) : Outcome unit :=
  if closed st then backend_closed st
  else (Ok (), set_schemas st (delete path (reg_schemas st)), []).

(** Registers a new channel under [svc]; the spawned task that forwards its
    events to the handler is not modelled. *)
Definition watch_manifests (st : RegistryState) (svc : string) : Outcome unit :=
  if closed st then backend_closed st
  else
    let tx := next_sender st in
    let ws := <[svc := app (default [] (watchers st !! svc)) [tx]]> (watchers st) in
    (Ok (), {| manifests := manifests st; reg_schemas := reg_schemas st;
              watchers := ws; closed := closed st; next_sender := S tx |}, []).

Definition watch_schemas (st : RegistryState) (path : string) : Outcome unit :=
  (Err (Custom "schema watching not supported in memory registry"), st, []).

Definition close (st : RegistryState) : Outcome unit :=
  if closed st then (Ok (), st, [])
  else (Ok (), {| manifests := manifests st; reg_schemas := reg_schemas st;
                 watchers := ∅; closed := true; next_sender := next_sender st |}, []).

Definition health (st : RegistryState) : Result unit :=
  if closed st then Err (BackendUnavailable "registry is closed") else Ok ().

(** [MemoryRegistry::clear]: takes the two write locks, with no [closed]
    check. *)
Definition clear (st : RegistryState) : RegistryState :=
  {| manifests := ∅; reg_schemas := ∅; watchers := watchers st;
     closed := closed st; next_sender := next_sender st |}.

End Memory.

(** ** [gateway/client.rs] *)

Module Gateway.

(** [ServiceRoute]; [middleware] is always empty and [metadata] holds the
    schema family. *)
Record ServiceRoute := {
  path : string;
  methods : list string;
  target_url : string;
  health_url : string;
  route_service_name : string;
  route_service_version : string;
  middleware : list string;
  metadata : list (string * json);
}.

(** [Client]: the registry handle is not needed by the claims. *)
Record Client := {
  manifest_cache : gmap string SchemaManifest;
  schema_cache : gmap string json;
}.

Definition new_client : Client := {| manifest_cache := ∅; schema_cache := ∅ |}.

(** ASCII [char::to_uppercase]; the keys it is applied to are ASCII. *)
Definition ascii_upper (c : ascii) : ascii :=
  let n := Ascii.nat_of_ascii c in
  if Nat.leb 97 n && Nat.leb n 122 then Ascii.ascii_of_nat (n - 32) else c.

Fixpoint to_uppercase (s : string) : string :=
  match s with
  | EmptyString => EmptyString
  | String c r => String (ascii_upper c) (to_uppercase r)
  end.

(** The [matches!] pattern of [convert_openapi_to_routes]. *)
Definition is_http_verb_key (k : string) : bool :=
  match k with
  | "get" | "post" | "put" | "delete" | "patch" | "options" | "head" => true
  | _ => false
  end.

Definition route_methods (path_obj : list (string * json)) : list string :=
  List.map to_uppercase (List.filter is_http_verb_key (List.map fst path_obj)).

Definition base_url (manifest : SchemaManifest) : string :=
  "http://" ++ service_name manifest ++ ":8080".

Definition convert_openapi_to_routes (manifest : SchemaManifest) (schema : json)
  : list ServiceRoute :=
  match json_get "paths" schema ≫= as_object with
  | None => []
  | Some paths =>
      List.flat_map
        (fun '(p, path_item) =>
           match as_object path_item with
           | None => []
           | Some path_obj =>
               let ms := route_methods path_obj in
               match ms with
               | [] => []
               | _ :: _ =>
                   [{| path := p;
                       methods := ms;
                       target_url := base_url manifest ++ p;
                       health_url := base_url manifest ++ health (endpoints manifest);
                       route_service_name := service_name manifest;
                       route_service_version := service_version manifest;
                       middleware := [];
                       metadata := [("schema_type", JStr "openapi")] |}]
               end
           end)
        paths
  end.

(** [clear_cache] takes the write lock of [schema_cache] only. *)
Definition clear_cache (c : Client) : Client :=
  {| manifest_cache := manifest_cache c; schema_cache := ∅ |}.

Definition set_schema_cache (c : Client) (s : gmap string json) : Client :=
  {| manifest_cache := manifest_cache c; schema_cache := s |}.

Definition set_manifest_cache (c : Client) (m : gmap string SchemaManifest) : Client :=
  {| manifest_cache := m; schema_cache := schema_cache c |}.

(** [Client::get_manifest] *)
Definition get_manifest (c : Client) (id : string) : option SchemaManifest :=
  manifest_cache c !! id.

Definition convert_asyncapi_to_routes (manifest : SchemaManifest) (schema : json)
  : list ServiceRoute :=
  match json_get "channels" schema ≫= as_object with
  | None => []
  | Some channels =>
      List.map (fun channel_path =>
        {| path := channel_path;
           methods := ["WEBSOCKET"];
           target_url := base_url manifest ++ channel_path;
           health_url := base_url manifest ++ health (endpoints manifest);
           route_service_name := service_name manifest;
           route_service_version := service_version manifest;
           middleware := [];
           metadata := [("schema_type", JStr "asyncapi"); ("protocol", JStr "websocket")] |})
        (List.map fst channels)
  end.

Definition convert_graphql_to_routes (manifest : SchemaManifest) (schema : json)
  : list ServiceRoute :=
  let graphql_path := default "/graphql" (graphql (endpoints manifest)) in
  [{| path := graphql_path;
      methods := ["POST"; "GET"];
      target_url := base_url manifest ++ graphql_path;
      health_url := base_url manifest ++ health (endpoints manifest);
      route_service_name := service_name manifest;
      route_service_version := service_version manifest;
      middleware := [];
      metadata := [("schema_type", JStr "graphql")] |}].

Section Fetch.

(** [self.registry.fetch_schema(path)] of the client's registry. *)
Variable registry_fetch : string -> Result json.

(** [Client::fetch_schema]: the result and the client with its schema
    cache after the call. *)
Definition fetch_schema (c : Client) (d : SchemaDescriptor) : Result json * Client :=
  match schema_cache c !! hash d with
  | Some s => (Ok s, c)
  | None =>
      let r := match location_type (location d) with
               | Inline =>
                   match inline_schema d with
                   | Some s => Ok s
                   | None => Err (InvalidLocation "inline schema is missing")
                   end
               | Registry =>
                   match registry_path (location d) with
                   | Some p => registry_fetch p
                   | None => Err (InvalidLocation "registry path is missing")
                   end
               | HTTP => Err (SchemaFetchFailed "HTTP fetch not implemented")
               end in
      match r with
      | Ok s => (Ok s, set_schema_cache c (<[hash d := s]> (schema_cache c)))
      | Err e => (Err e, c)
      end
  end.

Definition routes_of_schema (manifest : SchemaManifest) (d : SchemaDescriptor) (schema : json)
  : list ServiceRoute :=
  match schema_type d with
  | OpenAPI => convert_openapi_to_routes manifest schema
  | AsyncAPI => convert_asyncapi_to_routes manifest schema
  | GraphQL => convert_graphql_to_routes manifest schema
  | _ => []
  end.

(** The inner loop of [Client::convert_to_routes]: a descriptor whose
    schema cannot be fetched is skipped ([continue]). *)
Fixpoint convert_descriptors (manifest : SchemaManifest) (c : Client)
  (ds : list SchemaDescriptor) : list ServiceRoute * Client :=
  match ds with
  | [] => ([], c)
  | d :: r =>
      let '(res, c1) := fetch_schema c d in
      let rs := match res with
                | Ok schema => routes_of_schema manifest d schema
                | Err _ => []
                end in
      let '(rs', c2) := convert_descriptors manifest c1 r in
      (app rs rs', c2)
  end.

(** [Client::convert_to_routes] *)
Fixpoint convert_to_routes (c : Client) (manifests : list SchemaManifest)
  : list ServiceRoute * Client :=
  match manifests with
  | [] => ([], c)
  | m :: r =>
      let '(rs, c1) := convert_descriptors m c (schemas m) in
      let '(rs', c2) := convert_to_routes c1 r in
      (app rs rs', c2)
  end.

End Fetch.

(** The manifest-cache update of the event handler installed by
    [Client::watch_services]. *)
Definition handle_event (cache : gmap string SchemaManifest) (ev : Memory.ManifestEvent)
  : gmap string SchemaManifest :=
  match Memory.event_type ev with
  | Memory.Added | Memory.Updated =>
      <[instance_id (Memory.ev_manifest ev) := Memory.ev_manifest ev]> cache
  | Memory.Removed => delete (instance_id (Memory.ev_manifest ev)) cache
  end.

End Gateway.

(** ** [merger/types.rs] and [merger/openapi.rs] *)

Module Merger.

(** [Operation]; [parameters], [request_body], [responses] and [security]
    are always empty after parsing and are left out. *)
Record Operation := {
  operation_id : option string;
  op_summary : option string;
  op_description : option string;
  tags : list string;
  deprecated : option bool;
  op_extensions : gmap string json;
}.

Record PathItem := {
  summary : option string;
  description : option string;
  get : option Operation;
  put : option Operation;
  post : option Operation;
  delete : option Operation;
  options : option Operation;
  head : option Operation;
  patch : option Operation;
  trace : option Operation;
  parameters : list json;
  extensions : gmap string json;
}.

Record Tag := {
  tag_name : string;
  tag_description : option string;
  tag_extensions : gmap string json;
}.

(** [Components]; the component objects themselves are kept as JSON. *)
Record Components := {
  comp_schemas : gmap string json;
  responses : gmap string json;
  comp_parameters : gmap string json;
  request_bodies : gmap string json;
  headers : gmap string json;
  security_schemes : gmap string json;
}.

Record Info := {
  title : string;
  info_description : option string;
  info_version : string;
  terms_of_service : option string;
  info_extensions : gmap string json;
}.

Record Server := {
  server_url : string;
  server_description : option string;
}.

Record OpenAPISpec := {
  openapi : string;
  info : Info;
  servers : list Server;
  spec_paths : gmap string PathItem;
  components : option Components;
  tags_list : list Tag;
  spec_extensions : gmap string json;
}.

Definition empty_components : Components :=
  {| comp_schemas := ∅; responses := ∅; comp_parameters := ∅;
     request_bodies := ∅; headers := ∅; security_schemes := ∅ |}.

(** [Option::and_then], [Option::map], [Option::or] and
    [Iterator::filter_map]. *)
Definition and_then {A B} (o : option A) (f : A -> option B) : option B :=
  match o with Some a => f a | None => None end.

Definition opt_map {A B} (f : A -> B) (o : option A) : option B :=
  match o with Some a => Some (f a) | None => None end.

Definition opt_or {A} (a b : option A) : option A :=
  match a with Some _ => a | None => b end.

Fixpoint filter_map {A B} (f : A -> option B) (l : list A) : list B :=
  match l with
  | [] => []
  | x :: r => match f x with Some y => y :: filter_map f r | None => filter_map f r end
  end.

(** [Iterator::collect::<HashMap<_, _>>]: later entries overwrite earlier
    ones. *)
Definition collect_map {A} (l : list (string * A)) : gmap string A :=
  fold_left (fun m '(k, v) => <[k := v]> m) l ∅.

Definition starts_with_x (k : string) : bool := String.prefix "x-" k.

Definition parse_extensions (obj : list (string * json)) : gmap string json :=
  collect_map (List.filter (fun kv => starts_with_x (fst kv)) obj).

Definition get_str (k : string) (obj : list (string * json)) : option string :=
  and_then (assoc_get k obj) as_str.

Definition parse_operation_public (obj : list (string * json)) : Operation :=
  {| operation_id := get_str "operationId" obj;
     op_summary := get_str "summary" obj;
     op_description := get_str "description" obj;
     tags := default [] (opt_map (filter_map as_str) (and_then (assoc_get "tags" obj) as_array));
     deprecated := and_then (assoc_get "deprecated" obj) as_bool;
     op_extensions := parse_extensions obj |}.

Definition get_op (k : string) (obj : list (string * json)) : option Operation :=
  opt_map parse_operation_public (and_then (assoc_get k obj) as_object).

Definition parse_path_item (obj : list (string * json)) : PathItem :=
  {| summary := get_str "summary" obj;
     description := get_str "description" obj;
     get := get_op "get" obj; put := get_op "put" obj; post := get_op "post" obj;
     delete := get_op "delete" obj; options := get_op "options" obj;
     head := get_op "head" obj; patch := get_op "patch" obj;
     trace := get_op "trace" obj;
     parameters := [];
     extensions := parse_extensions obj |}.

Definition parse_paths (obj : list (string * json)) : gmap string PathItem :=
  collect_map (filter_map (fun '(p, item) => opt_map (fun o => (p, parse_path_item o)) (as_object item)) obj).

Definition parse_components (obj : list (string * json)) : Components :=
  {| comp_schemas := default ∅ (opt_map collect_map (and_then (assoc_get "schemas" obj) as_object));
     responses := ∅; comp_parameters := ∅; request_bodies := ∅;
     headers := ∅; security_schemes := ∅ |}.

Definition parse_tags (arr : list json) : list Tag :=
  filter_map (fun v =>
          and_then (as_object v) (fun obj =>
          and_then (get_str "name" obj) (fun name =>
          Some {| tag_name := name; tag_description := get_str "description" obj;
                  tag_extensions := parse_extensions obj |}))) arr.

Definition parse_servers (arr : list json) : list Server :=
  filter_map (fun v =>
          and_then (as_object v) (fun obj =>
          and_then (get_str "url" obj) (fun u =>
          Some {| server_url := u; server_description := get_str "description" obj |}))) arr.

Definition ok_or {A} (o : option A) (e : Error) : Result A :=
  match o with Some a => Ok a | None => Err e end.

Definition parse_info_public (value : option json) : Result Info :=
  info ← ok_or (and_then value as_object) (InvalidSchema "missing or invalid info");
  t ← ok_or (get_str "title" info) (InvalidSchema "missing info.title");
  v ← ok_or (get_str "version" info) (InvalidSchema "missing info.version");
  Ok {| title := t; info_description := get_str "description" info;
        info_version := v; terms_of_service := get_str "termsOfService" info;
        info_extensions := parse_extensions info |}.

Definition parse_openapi_schema (raw : json) : Result OpenAPISpec :=
  schema_map ← ok_or (as_object raw) (InvalidSchema "schema must be an object");
  oa ← ok_or (get_str "openapi" schema_map) (InvalidSchema "missing openapi version");
  inf ← parse_info_public (assoc_get "info" schema_map);
  Ok {| openapi := oa;
        info := inf;
        servers := default [] (opt_map parse_servers (and_then (assoc_get "servers" schema_map) as_array));
        spec_paths := default ∅ (opt_map parse_paths (and_then (assoc_get "paths" schema_map) as_object));
        components := opt_map parse_components (and_then (assoc_get "components" schema_map) as_object);
        tags_list := default [] (opt_map parse_tags (and_then (assoc_get "tags" schema_map) as_array));
        spec_extensions := parse_extensions schema_map |}.

(** [Extend::extend] on a [HashMap]: every entry of [new] is inserted into
    [existing], overwriting on a shared key. *)
Definition extend_map {A} (existing new : gmap string A) : gmap string A :=
  map_fold (fun k v acc => <[k := v]> acc) existing new.

(** Merges two path items, preferring non-None operations *)
Definition merge_path_items (existing new : PathItem) : PathItem :=
  {| summary := opt_or (summary new) (summary existing);
     description := opt_or (description new) (description existing);
     get := opt_or (get new) (get existing);
     post := opt_or (post new) (post existing);
     put := opt_or (put new) (put existing);
     delete := opt_or (delete new) (delete existing);
     patch := opt_or (patch new) (patch existing);
     options := opt_or (options new) (options existing);
     head := opt_or (head new) (head existing);
     trace := opt_or (trace new) (trace existing);
     parameters := app (parameters existing) (parameters new);
     extensions := extend_map (extensions existing) (extensions new) |}.

(** [apply_mount_strategy] and [apply_routing] *)
Definition apply_mount_strategy (p : string) (manifest : SchemaManifest) : string :=
  let r := routing manifest in
  match strategy r with
  | Root => p
  | Instance => "/" ++ instance_id manifest ++ p
  | Service => "/" ++ service_name manifest ++ p
  | Versioned => "/" ++ service_name manifest ++ "/" ++ service_version manifest ++ p
  | CustomMount => match base_path r with Some b => b ++ p | None => p end
  | Subdomain => p
  end.

Definition apply_routing (paths : gmap string PathItem) (manifest : SchemaManifest)
  : gmap string PathItem :=
  collect_map (List.map (fun '(p, item) => (apply_mount_strategy p manifest, item))
                        (map_to_list paths)).

Definition prefix_names (prefix : string) (m : gmap string json) : gmap string json :=
  collect_map (List.map (fun '(n, v) => (prefix ++ "_" ++ n, v)) (map_to_list m)).

Definition prefix_component_names (c : Components) (prefix : string) : Components :=
  if Manifest.is_empty prefix then c
  else {| comp_schemas := prefix_names prefix (comp_schemas c);
          responses := prefix_names prefix (responses c);
          comp_parameters := prefix_names prefix (comp_parameters c);
          request_bodies := prefix_names prefix (request_bodies c);
          headers := ∅;
          security_schemes := security_schemes c |}.

(** ** [merger/mod.rs] *)

Inductive ConflictType := PathConflict | ComponentConflict | TagConflict
                        | OperationIDConflict | SecuritySchemeConflict.

Record Conflict := {
  conflict_type : ConflictType;
  item : string;
  services : list string;
  resolution : string;
  c_strategy : ConflictStrategy;
}.

Record MergerConfig := {
  default_conflict_strategy : ConflictStrategy;
  merged_title : string;
  merged_description : string;
  merged_version : string;
  include_service_tags : bool;
  sort_output : bool;
  config_servers : list Server;
}.

Record ServiceSchema := {
  ss_manifest : SchemaManifest;
  ss_schema : json;
  parsed : option OpenAPISpec;
}.

Record MergeResult := {
  spec : OpenAPISpec;
  included_services : list string;
  excluded_services : list string;
  conflicts : list Conflict;
  warnings : list string;
}.

(** The state of the loop of [Merger::merge]: the [MergeResult] under
    construction and the five [seen_*] maps.  [result.spec.components] is
    [Some] from the start and is never reset, so the components are kept
    unwrapped; the spec fields the loop never writes are added at the end. *)
Record MergeState := {
  m_paths : gmap string PathItem;
  m_components : Components;
  m_tags : list Tag;
  m_included : list string;
  m_excluded : list string;
  m_conflicts : list Conflict;
  m_warnings : list string;
  seen_paths : gmap string string;
  seen_components : gmap string string;
  seen_operation_ids : gmap string string;
  seen_tags : gmap string Tag;
  seen_security_schemes : gmap string string;
}.

Definition push_conflict (st : MergeState) (c : Conflict) : MergeState :=
  {| m_paths := m_paths st; m_components := m_components st; m_tags := m_tags st;
     m_included := m_included st; m_excluded := m_excluded st;
     m_conflicts := app (m_conflicts st) [c]; m_warnings := m_warnings st;
     seen_paths := seen_paths st; seen_components := seen_components st;
     seen_operation_ids := seen_operation_ids st; seen_tags := seen_tags st;
     seen_security_schemes := seen_security_schemes st |}.

Definition push_included (st : MergeState) (n : string) : MergeState :=
  {| m_paths := m_paths st; m_components := m_components st; m_tags := m_tags st;
     m_included := app (m_included st) [n]; m_excluded := m_excluded st;
     m_conflicts := m_conflicts st; m_warnings := m_warnings st;
     seen_paths := seen_paths st; seen_components := seen_components st;
     seen_operation_ids := seen_operation_ids st; seen_tags := seen_tags st;
     seen_security_schemes := seen_security_schemes st |}.

Definition push_excluded (st : MergeState) (n : string) : MergeState :=
  {| m_paths := m_paths st; m_components := m_components st; m_tags := m_tags st;
     m_included := m_included st; m_excluded := app (m_excluded st) [n];
     m_conflicts := m_conflicts st; m_warnings := m_warnings st;
     seen_paths := seen_paths st; seen_components := seen_components st;
     seen_operation_ids := seen_operation_ids st; seen_tags := seen_tags st;
     seen_security_schemes := seen_security_schemes st |}.

Definition push_warning (st : MergeState) (w : string) : MergeState :=
  {| m_paths := m_paths st; m_components := m_components st; m_tags := m_tags st;
     m_included := m_included st; m_excluded := m_excluded st;
     m_conflicts := m_conflicts st; m_warnings := app (m_warnings st) [w];
     seen_paths := seen_paths st; seen_components := seen_components st;
     seen_operation_ids := seen_operation_ids st; seen_tags := seen_tags st;
     seen_security_schemes := seen_security_schemes st |}.

Definition set_seen_operation_ids (st : MergeState) (s : gmap string string) : MergeState :=
  {| m_paths := m_paths st; m_components := m_components st; m_tags := m_tags st;
     m_included := m_included st; m_excluded := m_excluded st;
     m_conflicts := m_conflicts st; m_warnings := m_warnings st;
     seen_paths := seen_paths st; seen_components := seen_components st;
     seen_operation_ids := s; seen_tags := seen_tags st;
     seen_security_schemes := seen_security_schemes st |}.

(** [result.spec.paths.insert(path, item); seen_paths.insert(path, service)] *)
Definition insert_path (st : MergeState) (p : string) (it : PathItem) (svc : string)
  : MergeState :=
  {| m_paths := <[p := it]> (m_paths st); m_components := m_components st;
     m_tags := m_tags st; m_included := m_included st; m_excluded := m_excluded st;
     m_conflicts := m_conflicts st; m_warnings := m_warnings st;
     seen_paths := <[p := svc]> (seen_paths st); seen_components := seen_components st;
     seen_operation_ids := seen_operation_ids st; seen_tags := seen_tags st;
     seen_security_schemes := seen_security_schemes st |}.

Definition set_components (st : MergeState) (c : Components) (sc ss : gmap string string)
  : MergeState :=
  {| m_paths := m_paths st; m_components := c; m_tags := m_tags st;
     m_included := m_included st; m_excluded := m_excluded st;
     m_conflicts := m_conflicts st; m_warnings := m_warnings st;
     seen_paths := seen_paths st; seen_components := sc;
     seen_operation_ids := seen_operation_ids st; seen_tags := seen_tags st;
     seen_security_schemes := ss |}.

Definition set_tags (st : MergeState) (t : list Tag) (seen : gmap string Tag) : MergeState :=
  {| m_paths := m_paths st; m_components := m_components st; m_tags := t;
     m_included := m_included st; m_excluded := m_excluded st;
     m_conflicts := m_conflicts st; m_warnings := m_warnings st;
     seen_paths := seen_paths st; seen_components := seen_components st;
     seen_operation_ids := seen_operation_ids st; seen_tags := seen;
     seen_security_schemes := seen_security_schemes st |}.

Definition mk_conflict (t : ConflictType) (it : string) (svcs : list string)
  (res : string) (s : ConflictStrategy) : Conflict :=
  {| conflict_type := t; item := it; services := svcs; resolution := res; c_strategy := s |}.

Definition set_operation_id (o : Operation) (v : option string) : Operation :=
  {| operation_id := v; op_summary := op_summary o; op_description := op_description o;
     tags := tags o; deprecated := deprecated o; op_extensions := op_extensions o |}.

Definition set_op_tags (o : Operation) (v : list string) : Operation :=
  {| operation_id := operation_id o; op_summary := op_summary o;
     op_description := op_description o; tags := v; deprecated := deprecated o;
     op_extensions := op_extensions o |}.

(** The closure [apply_to_op] of [apply_operation_prefixes]; the conflicts
    it records and [seen_operation_ids] live in the loop state. *)
Definition apply_to_op (op_id_prefix tag_prefix svc : string)
  (op : option Operation) (st : MergeState) : option Operation * MergeState :=
  match op with
  | None => (None, st)
  | Some o =>
      let '(o1, st1) :=
        match operation_id o with
        | None => (o, st)
        | Some original_id =>
            let new_id := if Manifest.is_empty op_id_prefix then original_id
                          else op_id_prefix ++ "_" ++ original_id in
            let st' := match seen_operation_ids st !! new_id with
                       | Some existing_service =>
                           push_conflict st (mk_conflict OperationIDConflict original_id
                             [existing_service; svc] ("Prefixed to " ++ new_id) Prefix)
                       | None => st
                       end in
            (set_operation_id o (Some new_id),
             set_seen_operation_ids st' (<[new_id := svc]> (seen_operation_ids st')))
        end in
      let o2 := if Manifest.is_empty tag_prefix then o1
                else set_op_tags o1 (List.map (fun t => tag_prefix ++ "_" ++ t) (tags o1)) in
      (Some o2, st1)
  end.

Definition apply_operation_prefixes (it : PathItem) (op_id_prefix tag_prefix svc : string)
  (st : MergeState) : PathItem * MergeState :=
  let f := apply_to_op op_id_prefix tag_prefix svc in
  let '(g, st) := f (get it) st in
  let '(po, st) := f (post it) st in
  let '(pu, st) := f (put it) st in
  let '(d, st) := f (delete it) st in
  let '(pa, st) := f (patch it) st in
  let '(o, st) := f (options it) st in
  let '(h, st) := f (head it) st in
  let '(t, st) := f (trace it) st in
  ({| summary := summary it; description := description it;
      get := g; put := pu; post := po; delete := d; options := o; head := h;
      patch := pa; trace := t; parameters := parameters it; extensions := extensions it |},
   st).

(** The context of one service in the loop of [Merger::merge]. *)
Record ServiceCtx := {
  ctx_service_name : string;
  ctx_strategy : ConflictStrategy;
  ctx_component_prefix : string;
  ctx_tag_prefix : string;
  ctx_operation_id_prefix : string;
}.

(** The tail of the body of the path loop: prefixing, then insertion. *)
Definition insert_prefixed_path (ctx : ServiceCtx) (st : MergeState) (p : string)
  (it : PathItem) : MergeState :=
  let '(it', st') := apply_operation_prefixes it (ctx_operation_id_prefix ctx)
                       (ctx_tag_prefix ctx) (ctx_service_name ctx) st in
  insert_path st' p it' (ctx_service_name ctx).

(** One iteration of [for (mut path, mut path_item) in paths]. *)
Definition merge_path (ctx : ServiceCtx) (st : MergeState) (entry : string * PathItem)
  : Result MergeState :=
  let '(p, it) := entry in
  let svc := ctx_service_name ctx in
  let strat := ctx_strategy ctx in
  match seen_paths st !! p with
  | None => Ok (insert_prefixed_path ctx st p it)
  | Some existing_service =>
      let c := fun res => mk_conflict PathConflict p [existing_service; svc] res in
      match strat with
      | ErrorStrategy =>
          Err (Custom ("path conflict: " ++ p ++ " exists in both " ++ existing_service
                       ++ " and " ++ svc))
      | Skip => Ok (push_conflict st (c ("Skipped path from " ++ svc) strat))
      | Overwrite =>
          Ok (insert_prefixed_path ctx
                (push_conflict st (c ("Overwritten with " ++ svc ++ " version") strat)) p it)
      | Prefix =>
          let new_path := "/" ++ svc ++ p in
          Ok (insert_prefixed_path ctx
                (push_conflict st (c ("Prefixed to " ++ new_path) strat)) new_path it)
      | Merge =>
          let it' := match m_paths st !! p with
                     | Some existing => merge_path_items existing it
                     | None => it
                     end in
          Ok (insert_prefixed_path ctx (push_conflict st (c "Merged operations" strat)) p it')
      end
  end.

Fixpoint fold_result {S A} (f : S -> A -> Result S) (s : S) (l : list A) : Result S :=
  match l with
  | [] => Ok s
  | x :: r => match f s x with Ok s' => fold_result f s' r | Err e => Err e end
  end.

Definition with_comp_schemas (c : Components) (v : gmap string json) : Components :=
  {| comp_schemas := v; responses := responses c; comp_parameters := comp_parameters c;
     request_bodies := request_bodies c; headers := headers c;
     security_schemes := security_schemes c |}.

Definition with_security_schemes (c : Components) (v : gmap string json) : Components :=
  {| comp_schemas := comp_schemas c; responses := responses c;
     comp_parameters := comp_parameters c; request_bodies := request_bodies c;
     headers := headers c; security_schemes := v |}.

Definition is_skip (s : ConflictStrategy) : bool :=
  match s with Skip => true | _ => false end.

(** One iteration of [for (name, schema_obj) in &prefixed.schemas]. *)
Definition merge_component_schema (ctx : ServiceCtx) (st : MergeState)
  (entry : string * json) : MergeState :=
  let '(name, obj) := entry in
  let svc := ctx_service_name ctx in
  let strat := ctx_strategy ctx in
  let insert st :=
    set_components st (with_comp_schemas (m_components st)
                         (<[name := obj]> (comp_schemas (m_components st))))
      (<[name := svc]> (seen_components st)) (seen_security_schemes st) in
  match seen_components st !! name with
  | Some existing_service =>
      let st1 := push_conflict st (mk_conflict ComponentConflict name
                   [existing_service; svc]
                   (if is_skip strat then "Skipped component from " ++ svc
                    else "Overwritten with " ++ svc ++ " version") strat) in
      if is_skip strat then st1 else insert st1
  | None => insert st
  end.

(** One iteration of [for (name, scheme) in &prefixed.security_schemes]. *)
Definition merge_security_scheme (ctx : ServiceCtx) (st : MergeState)
  (entry : string * json) : Result MergeState :=
  let '(name, scheme) := entry in
  let svc := ctx_service_name ctx in
  let strat := ctx_strategy ctx in
  let insert st n :=
    set_components st (with_security_schemes (m_components st)
                         (<[n := scheme]> (security_schemes (m_components st))))
      (seen_components st) (<[n := svc]> (seen_security_schemes st)) in
  match seen_security_schemes st !! name with
  | None => Ok (insert st name)
  | Some existing_service =>
      let c := fun res => mk_conflict SecuritySchemeConflict name
                            [existing_service; svc] res strat in
      match strat with
      | ErrorStrategy =>
          Err (Custom ("security scheme conflict: " ++ name ++ " exists in both "
                       ++ existing_service ++ " and " ++ svc))
      | Skip => Ok (push_conflict st (c ("Skipped security scheme from " ++ svc)))
      | Overwrite =>
          Ok (insert (push_conflict st (c ("Overwritten with " ++ svc ++ " version"))) name)
      | Prefix =>
          let prefixed_name := svc ++ "_" ++ name in
          Ok (insert (push_conflict st (c ("Prefixed to " ++ prefixed_name))) prefixed_name)
      | Merge =>
          Ok (insert (push_conflict st (c ("Merged (overwritten) with " ++ svc ++ " version")))
                name)
      end
  end.

(** The [// Merge components] block. *)
Definition merge_components (ctx : ServiceCtx) (st : MergeState) (comps : Components)
  : Result MergeState :=
  let prefixed := prefix_component_names comps (ctx_component_prefix ctx) in
  let st1 := fold_left (merge_component_schema ctx) (map_to_list (comp_schemas prefixed)) st in
  let c := m_components st1 in
  let c' := {| comp_schemas := comp_schemas c;
               responses := extend_map (responses c) (responses prefixed);
               comp_parameters := extend_map (comp_parameters c) (comp_parameters prefixed);
               request_bodies := extend_map (request_bodies c) (request_bodies prefixed);
               headers := headers c;
               security_schemes := security_schemes c |} in
  let st2 := set_components st1 c' (seen_components st1) (seen_security_schemes st1) in
  fold_result (merge_security_scheme ctx) st2 (map_to_list (security_schemes prefixed)).

Definition set_tag_name (t : Tag) (n : string) : Tag :=
  {| tag_name := n; tag_description := tag_description t; tag_extensions := tag_extensions t |}.

Definition set_tag_description (t : Tag) (d : option string) : Tag :=
  {| tag_name := tag_name t; tag_description := d; tag_extensions := tag_extensions t |}.

Fixpoint position {A} (p : A -> bool) (l : list A) : option nat :=
  match l with
  | [] => None
  | x :: r => if p x then Some 0 else S <$> position p r
  end.

(** One iteration of [for mut tag in parsed.tags.clone()]. *)
Definition merge_tag (cfg : MergerConfig) (ctx : ServiceCtx) (st : MergeState) (tag : Tag)
  : MergeState :=
  let tag := if negb (Manifest.is_empty (ctx_tag_prefix ctx)) && include_service_tags cfg
             then set_tag_name tag (ctx_tag_prefix ctx ++ "_" ++ tag_name tag) else tag in
  match seen_tags st !! tag_name tag with
  | Some existing =>
      match tag_description tag, tag_description existing with
      | Some _, None =>
          let updated := set_tag_description existing (tag_description tag) in
          let ts := match position (fun t => String.eqb (tag_name t) (tag_name tag)) (m_tags st) with
                    | Some pos => <[pos := updated]> (m_tags st)
                    | None => m_tags st
                    end in
          set_tags st ts (<[tag_name tag := updated]> (seen_tags st))
      | _, _ => st
      end
  | None => set_tags st (app (m_tags st) [tag]) (<[tag_name tag := tag]> (seen_tags st))
  end.

Definition is_openapi (t : SchemaType) : bool :=
  match t with OpenAPI => true | _ => false end.

Fixpoint should_include_in_merge_aux (l : list SchemaDescriptor) : bool :=
  match l with
  | [] => false
  | sd :: r =>
      if is_openapi (schema_type sd) then
        match and_then (and_then (sd_metadata sd) pm_openapi) composition with
        | Some comp => include_in_merged comp
        | None => true
        end
      else should_include_in_merge_aux r
  end.

Definition should_include_in_merge (schema : ServiceSchema) : bool :=
  should_include_in_merge_aux (schemas (ss_manifest schema)).

Fixpoint get_composition_config_aux (l : list SchemaDescriptor) : option CompositionConfig :=
  match l with
  | [] => None
  | sd :: r =>
      if is_openapi (schema_type sd) then
        match and_then (sd_metadata sd) pm_openapi with
        | Some om => composition om
        | None => get_composition_config_aux r
        end
      else get_composition_config_aux r
  end.

Definition get_composition_config (m : SchemaManifest) : option CompositionConfig :=
  get_composition_config_aux (schemas m).

Definition get_conflict_strategy (cfg : MergerConfig) (c : option CompositionConfig)
  : ConflictStrategy :=
  default (default_conflict_strategy cfg) (opt_map conflict_strategy c).

Definition prefix_or_service (m : SchemaManifest) (o : option string) : string :=
  default (service_name m) o.

(** The [Display] of the parse errors ([errors.rs]); the other variants do
    not reach the merger's warnings. *)
Definition error_display (e : Error) : string :=
  match e with
  | InvalidSchema msg => "invalid schema format: " ++ msg
  | Custom msg => "custom error: " ++ msg
  | _ => ""
  end.

(** The rest of the loop body once [schema.parsed] is known. *)
Definition merge_parsed (cfg : MergerConfig) (m : SchemaManifest) (st : MergeState)
  (parsed : OpenAPISpec) : Result MergeState :=
  let comp_config := get_composition_config m in
  let ctx := {| ctx_service_name := service_name m;
                ctx_strategy := get_conflict_strategy cfg comp_config;
                ctx_component_prefix :=
                  prefix_or_service m (and_then comp_config component_prefix);
                ctx_tag_prefix := prefix_or_service m (and_then comp_config tag_prefix);
                ctx_operation_id_prefix :=
                  prefix_or_service m (and_then comp_config operation_id_prefix) |} in
  let paths := apply_routing (spec_paths parsed) m in
  st1 ← fold_result (merge_path ctx) st (map_to_list paths);
  st2 ← (match components parsed with
         | Some comps => merge_components ctx st1 comps
         | None => Ok st1
         end);
  Ok (fold_left (merge_tag cfg ctx) (tags_list parsed) st2).

(** One iteration of [for mut schema in schemas]. *)
Definition merge_service (cfg : MergerConfig) (st : MergeState) (schema : ServiceSchema)
  : Result MergeState :=
  let svc := service_name (ss_manifest schema) in
  if negb (should_include_in_merge schema) then Ok (push_excluded st svc)
  else
    let st := push_included st svc in
    match parsed schema with
    | Some p => merge_parsed cfg (ss_manifest schema) st p
    | None =>
        match parse_openapi_schema (ss_schema schema) with
        | Ok p => merge_parsed cfg (ss_manifest schema) st p
        | Err e =>
            Ok (push_warning st ("Failed to parse schema for " ++ svc ++ ": " ++ error_display e))
        end
    end.

Definition init_state : MergeState :=
  {| m_paths := ∅; m_components := empty_components; m_tags := [];
     m_included := []; m_excluded := []; m_conflicts := []; m_warnings := [];
     seen_paths := ∅; seen_components := ∅; seen_operation_ids := ∅;
     seen_tags := ∅; seen_security_schemes := ∅ |}.

(** The stable [sort_by] on tag names. *)
Fixpoint insert_tag (t : Tag) (l : list Tag) : list Tag :=
  match l with
  | [] => [t]
  | t' :: r => match String.compare (tag_name t) (tag_name t') with
               | Lt => t :: t' :: r
               | _ => t' :: insert_tag t r
               end
  end.

Definition sort_tags (l : list Tag) : list Tag := fold_left (fun acc t => insert_tag t acc) l [].

Definition finish (cfg : MergerConfig) (st : MergeState) : MergeResult :=
  {| spec := {| openapi := "3.1.0";
                info := {| title := merged_title cfg;
                           info_description := Some (merged_description cfg);
                           info_version := merged_version cfg;
                           terms_of_service := None; info_extensions := ∅ |};
                servers := config_servers cfg;
                spec_paths := m_paths st;
                components := Some (m_components st);
                tags_list := if sort_output cfg then sort_tags (m_tags st) else m_tags st;
                spec_extensions := ∅ |};
     included_services := m_included st;
     excluded_services := m_excluded st;
     conflicts := m_conflicts st;
     warnings := m_warnings st |}.

(** [Merger::merge] *)
Definition merge (cfg : MergerConfig) (schemas : list ServiceSchema) : Result MergeResult :=
  st ← fold_result (merge_service cfg) init_state schemas;
  Ok (finish cfg st).

End Merger.

(** * Properties *)

(** ** Helper lemmas on the embedding *)

Lemma extend_map_lookup {A} (existing new : gmap string A) (k : string) :
  Merger.extend_map existing new !! k =
  match new !! k with Some v => Some v | None => existing !! k end.
Proof.
  unfold Merger.extend_map. revert k.
  apply (map_fold_weak_ind
           (fun r m => forall k, r !! k = match m !! k with Some v => Some v
                                            | None => existing !! k end)).
  - intros k. by rewrite lookup_empty.
  - intros i x m r Hi IH k. destruct (decide (i = k)) as [->|Hne].
    + by rewrite !lookup_insert_eq.
    + rewrite !lookup_insert_ne by done. apply IH.
Qed.

(** ** C1: [merge_path_items] *)

Definition op_named (id : string) : Merger.Operation :=
  {| Merger.operation_id := Some id; Merger.op_summary := None;
     Merger.op_description := None; Merger.tags := []; Merger.deprecated := None;
     Merger.op_extensions := ∅ |}.

Definition path_item_with_get (o : option Merger.Operation) : Merger.PathItem :=
  {| Merger.summary := None; Merger.description := None; Merger.get := o;
     Merger.put := None; Merger.post := None; Merger.delete := None;
     Merger.options := None; Merger.head := None; Merger.patch := None;
     Merger.trace := None; Merger.parameters := []; Merger.extensions := ∅ |}.

(** C1 (counterexample): when both sides define [get], the merged item
    carries the NEW side's operation, not the existing one. *)
Lemma merge_path_items_existing_not_kept :
  Merger.get (Merger.merge_path_items (path_item_with_get (Some (op_named "existing")))
                                      (path_item_with_get (Some (op_named "new"))))
  = Some (op_named "new")
  /\ Some (op_named "new") <> Some (op_named "existing").
Proof. split; [reflexivity | discriminate]. Qed.

(** The value of a method slot of the merge: the new side's operation when
    present, the existing side's otherwise ([Option::or]). *)
Definition new_or_existing {A} (n e : option A) : option A :=
  match n with Some o => Some o | None => e end.

(** C1 (amended): in [merge_path_items existing new], each of the eight
    method slots holds the new side's operation when it has one and the
    existing side's otherwise; the parameters are the existing ones followed
    by the new ones; an extension key maps to the new side's value when the
    new side has it and to the existing side's otherwise. *)
Theorem merge_path_items_new_wins (existing new : Merger.PathItem) :
  let m := Merger.merge_path_items existing new in
  Merger.get m = new_or_existing (Merger.get new) (Merger.get existing) /\
  Merger.put m = new_or_existing (Merger.put new) (Merger.put existing) /\
  Merger.post m = new_or_existing (Merger.post new) (Merger.post existing) /\
  Merger.delete m = new_or_existing (Merger.delete new) (Merger.delete existing) /\
  Merger.options m = new_or_existing (Merger.options new) (Merger.options existing) /\
  Merger.head m = new_or_existing (Merger.head new) (Merger.head existing) /\
  Merger.patch m = new_or_existing (Merger.patch new) (Merger.patch existing) /\
  Merger.trace m = new_or_existing (Merger.trace new) (Merger.trace existing) /\
  Merger.parameters m = app (Merger.parameters existing) (Merger.parameters new) /\
  (forall k, Merger.extensions m !! k =
             new_or_existing (Merger.extensions new !! k) (Merger.extensions existing !! k)).
Proof.
  cbn zeta. unfold Merger.merge_path_items, Merger.opt_or, new_or_existing; cbn.
  repeat split; try (destruct (_ new); reflexivity).
  intros k. apply extend_map_lookup.
Qed.

(** ** C2: [is_compatible] *)

Fixpoint has_dot (s : string) : bool :=
  match s with
  | EmptyString => false
  | String c r => Ascii.eqb c "."%char || has_dot r
  end.

Lemma split_dot_no_dot (a : string) : has_dot a = false -> Version.split_dot a = [a].
Proof.
  induction a as [|c r IH]; [reflexivity|]. simpl. intros H.
  apply orb_false_iff in H as [Hc Hr]. rewrite Hc, IH by exact Hr. reflexivity.
Qed.

Lemma append_String (c : ascii) (s1 s2 : string) : String c s1 ++ s2 = String c (s1 ++ s2).
Proof. reflexivity. Qed.

Lemma split_dot_app (a rest : string) :
  has_dot a = false ->
  Version.split_dot (a ++ "." ++ rest) = a :: Version.split_dot rest.
Proof.
  induction a as [|c r IH]; [reflexivity|]. rewrite append_String. simpl. intros H.
  apply orb_false_iff in H as [Hc Hr]. rewrite Hc, IH by exact Hr. reflexivity.
Qed.

Lemma split_dot_not_nil (v : string) : Version.split_dot v <> [].
Proof.
  destruct v as [|c r]; simpl; [discriminate|].
  destruct (c =? ".")%char; [discriminate|]. destruct (Version.split_dot r); discriminate.
Qed.

(** [split_dot] is inverted by joining with ["."], and no segment holds a
    dot. *)
Lemma split_dot_join (v : string) :
  String.concat "." (Version.split_dot v) = v /\
  Forall (fun s => has_dot s = false) (Version.split_dot v).
Proof.
  induction v as [|c r [IHj IHf]]; [split; [reflexivity | repeat constructor]|].
  pose proof (split_dot_not_nil r) as Hnn.
  simpl. destruct (Version.split_dot r) as [|h t] eqn:Hs; [congruence|].
  inversion IHf as [|? ? Hh Ht]; subst.
  destruct (Ascii.eqb c "."%char) eqn:Hc.
  - apply Ascii.eqb_eq in Hc as ->. split.
    + destruct t; reflexivity.
    + constructor; [reflexivity | exact IHf].
  - split.
    + destruct t; reflexivity.
    + constructor; [simpl; rewrite Hc, Hh; reflexivity | exact Ht].
Qed.

Lemma split_dot_three (v a b c : string) :
  Version.split_dot v = [a; b; c] <->
  v = a ++ "." ++ b ++ "." ++ c /\ has_dot a = false /\ has_dot b = false /\ has_dot c = false.
Proof.
  split.
  - intros Hs. destruct (split_dot_join v) as [Hj Hf]. rewrite Hs in Hj, Hf.
    inversion Hf as [|? ? Ha Hf1]; inversion Hf1 as [|? ? Hb Hf2];
      inversion Hf2 as [|? ? Hc _]; subst.
    repeat split; assumption.
  - intros (-> & Ha & Hb & Hc).
    rewrite split_dot_app by exact Ha. rewrite split_dot_app by exact Hb.
    rewrite split_dot_no_dot by exact Hc. reflexivity.
Qed.

Lemma parse_digits_nonneg (s : string) (acc r : Z) :
  (0 <= acc)%Z -> Version.parse_digits s acc = Some r -> (0 <= r)%Z.
Proof.
  revert acc. induction s as [|ch s IH]; simpl; intros acc Hacc Hr.
  - injection Hr as <-; exact Hacc.
  - unfold Version.digit_value in Hr.
    destruct (_ && _)%bool eqn:Hd; [|discriminate].
    apply andb_true_iff in Hd as [Hd1 _]. apply Z.leb_le in Hd1.
    destruct (Version.U32_MAX <? acc * 10)%Z; [discriminate|].
    destruct (Version.U32_MAX <? _)%Z; [discriminate|].
    eapply IH; [|exact Hr]. lia.
Qed.

Lemma parse_u32_nonneg (s : string) (r : Z) : Version.parse_u32 s = Some r -> (0 <= r)%Z.
Proof.
  unfold Version.parse_u32. intros H.
  repeat match type of H with
         | Version.parse_digits _ _ = Some _ => eapply parse_digits_nonneg; [|exact H]; lia
         | None = Some _ => discriminate
         | context [match ?x with _ => _ end] => destruct x
         end.
Qed.

(** C2 (counterexample): ["1.0.x"] is compatible although its third
    segment does not parse as an integer. *)
Lemma is_compatible_ignores_patch :
  Version.is_compatible "1.0.x" = true /\ Version.parse_u32 "x" = None.
Proof. split; reflexivity. Qed.

(** C2 (amended): [is_compatible v] holds exactly when [v] is made of three
    dot-free segments joined by dots, the first parses as the [u32] 1 and
    the second as the [u32] 0 (Rust's [u32::from_str]: an optional leading
    [+], then decimal digits, value below 2^32); the third segment is not
    examined. *)
Theorem is_compatible_iff (v : string) :
  Version.is_compatible v = true <->
  exists a b c, v = a ++ "." ++ b ++ "." ++ c /\
    has_dot a = false /\ has_dot b = false /\ has_dot c = false /\
    Version.parse_u32 a = Some Version.PROTOCOL_MAJOR /\
    Version.parse_u32 b = Some Version.PROTOCOL_MINOR.
Proof.
  unfold Version.is_compatible.
  split.
  - destruct (Version.split_dot v) as [|a [|b [|c [|d t]]]] eqn:Hs; cbn; try discriminate.
    apply split_dot_three in Hs as (Hv & Ha & Hb & Hc).
    destruct (Version.parse_u32 a) as [ma|] eqn:Hpa; [|discriminate].
    destruct (Version.parse_u32 b) as [mb|] eqn:Hpb; [|discriminate].
    destruct (Z.eqb ma Version.PROTOCOL_MAJOR) eqn:Hma; cbn; [|discriminate].
    intros Hmb. apply Z.eqb_eq in Hma. apply Z.leb_le in Hmb.
    pose proof (parse_u32_nonneg _ _ Hpb).
    exists a, b, c. subst ma. repeat split; try assumption.
    unfold Version.PROTOCOL_MINOR in *. rewrite Hpb. f_equal. lia.
  - intros (a & b & c & Hv & Ha & Hb & Hc & Hpa & Hpb).
    assert (Hs : Version.split_dot v = [a; b; c]) by (apply split_dot_three; auto).
    rewrite Hs. cbn. rewrite Hpa, Hpb. reflexivity.
Qed.

(** ** C3: the hash check of [validate_schema_descriptor] *)

Definition is_lower_hex_char (c : ascii) : bool :=
  let n := Ascii.nat_of_ascii c in
  (Nat.leb 48 n && Nat.leb n 57) || (Nat.leb 97 n && Nat.leb n 102).

Fixpoint all_lower_hex (s : string) : bool :=
  match s with
  | EmptyString => true
  | String c r => is_lower_hex_char c && all_lower_hex r
  end.

Definition is_lower_hex64 (s : string) : bool :=
  Nat.eqb (String.length s) 64 && all_lower_hex s.

Definition with_hash (sd : SchemaDescriptor) (h : string) : SchemaDescriptor :=
  {| schema_type := schema_type sd; spec_version := spec_version sd;
     location := location sd; content_type := content_type sd;
     inline_schema := inline_schema sd; hash := h; size := size sd;
     sd_metadata := sd_metadata sd |}.

Definition inline_descriptor (h : string) : SchemaDescriptor :=
  {| schema_type := OpenAPI; spec_version := "3.1.0";
     location := {| location_type := Inline; url := None; registry_path := None |};
     content_type := "application/json"; inline_schema := Some (JObj []);
     hash := h; size := 100; sd_metadata := None |}.

(** C3 (counterexample): a descriptor that is well formed except for its
    empty hash is rejected, by the hash check. *)
Lemma empty_hash_rejected :
  Manifest.validate_schema_descriptor (inline_descriptor "") =
  Err (Validation "hash" "schema hash is required").
Proof. reflexivity. Qed.

(** C3 (amended): the hash check rejects every descriptor whose hash is
    empty or is not 64 bytes long, and a descriptor whose hash is 64
    lowercase hexadecimal characters is never rejected by it. *)
Theorem validate_schema_descriptor_hash (sd : SchemaDescriptor) :
  ((hash sd = "" \/ String.length (hash sd) <> 64) ->
   Manifest.validate_schema_descriptor sd <> Ok ()) /\
  (is_lower_hex64 (hash sd) = true ->
   forall msg, Manifest.validate_schema_descriptor sd <> Err (Validation "hash" msg)).
Proof.
  unfold Manifest.validate_schema_descriptor, Manifest.is_empty.
  cbv [mbind result_mbind].
  split.
  - intros Hh Hok.
    repeat (match type of Hok with
            | context [match ?x with _ => _ end] => destruct x eqn:?
            end; try discriminate).
    repeat match goal with
           | H : String.eqb _ _ = false |- _ => apply String.eqb_neq in H
           | H : negb _ = false |- _ => apply negb_false_iff in H
           | H : Nat.eqb _ _ = true |- _ => apply Nat.eqb_eq in H
           end.
    tauto.
  - intros Hx msg Habs.
    unfold is_lower_hex64 in Hx. apply andb_true_iff in Hx as [Hl _].
    apply Nat.eqb_eq in Hl.
    repeat (match type of Habs with
            | context [match ?x with _ => _ end] => destruct x eqn:?
            end; try discriminate).
    all: repeat match goal with
           | H : String.eqb _ _ = true |- _ => apply String.eqb_eq in H
           | H : negb _ = true |- _ => apply negb_true_iff in H
           | H : Nat.eqb _ _ = false |- _ => apply Nat.eqb_neq in H
           end.
    all: try (match goal with H : hash _ = "" |- _ => rewrite H in Hl; discriminate end).
    all: try contradiction.
    injection Habs as ->.
    match goal with H : Manifest.validate_schema_location _ = _ |- _ =>
      unfold Manifest.validate_schema_location in H;
      repeat (match type of H with
              | context [match ?x with _ => _ end] => destruct x
              end); congruence
    end.
Qed.

(** ** C4: [calculate_manifest_checksum] *)

#[global] Instance SchemaType_eq_dec : EqDecision SchemaType.
Proof. solve_decision. Defined.

(** The position of [as_str] in the byte order of strings. *)
Definition type_rank (t : SchemaType) : nat :=
  match t with
  | AsyncAPI => 0 | Avro => 1 | CustomType => 2 | GraphQL => 3
  | GRPC => 4 | OpenAPI => 5 | ORPC => 6 | Thrift => 7
  end.

Lemma as_str_compare_rank (a b : SchemaType) :
  String.compare (SchemaType_as_str a) (SchemaType_as_str b) =
  Nat.compare (type_rank a) (type_rank b).
Proof. destruct a, b; reflexivity. Qed.

Lemma type_rank_inj (a b : SchemaType) : type_rank a = type_rank b -> a = b.
Proof. destruct a, b; simpl; congruence. Qed.

(** Consecutive descriptors in lexicographic order of [schema_type.as_str()]. *)
Definition type_le (a b : SchemaDescriptor) : Prop :=
  String.compare (SchemaType_as_str (schema_type a)) (SchemaType_as_str (schema_type b)) <> Gt.

Definition of_type (t : SchemaType) (l : list SchemaDescriptor) : list SchemaDescriptor :=
  List.filter (fun d => bool_decide (schema_type d = t)) l.

Definition rank_le (a b : SchemaDescriptor) : Prop :=
  type_rank (schema_type a) <= type_rank (schema_type b).

Lemma type_le_rank_le (a b : SchemaDescriptor) : type_le a b <-> rank_le a b.
Proof.
  unfold type_le, rank_le. rewrite as_str_compare_rank.
  rewrite Nat.compare_gt_iff. lia.
Qed.

Lemma sorted_type_le_strong (l : list SchemaDescriptor) :
  Sorted type_le l -> StronglySorted rank_le l.
Proof.
  intros H. apply Sorted_StronglySorted.
  - intros x y z. unfold rank_le. lia.
  - induction H as [|a l Hl IH Hhd]; constructor; [exact IH|].
    destruct Hhd; constructor. apply type_le_rank_le. assumption.
Qed.

Lemma of_type_nil_above (t : SchemaType) (l : list SchemaDescriptor) :
  Forall (fun y => type_rank t < type_rank (schema_type y)) l -> of_type t l = [].
Proof.
  induction 1 as [|y l Hy _ IH]; [reflexivity|]. unfold of_type in *. simpl.
  rewrite IH. case_bool_decide as Ht; [subst; lia | reflexivity].
Qed.

Lemma of_type_cons (t : SchemaType) (x : SchemaDescriptor) (l : list SchemaDescriptor) :
  of_type t (x :: l) = if bool_decide (schema_type x = t) then x :: of_type t l else of_type t l.
Proof. reflexivity. Qed.

Lemma insert_by_type_of_type (d : SchemaDescriptor) (l : list SchemaDescriptor) (t : SchemaType) :
  StronglySorted rank_le l ->
  of_type t (Manifest.insert_by_type d l) =
  if bool_decide (schema_type d = t) then app (of_type t l) [d] else of_type t l.
Proof.
  induction 1 as [|y l Hs IH Hall].
  - cbn [Manifest.insert_by_type]. rewrite of_type_cons. case_bool_decide; reflexivity.
  - cbn [Manifest.insert_by_type]. rewrite as_str_compare_rank.
    destruct (Nat.compare _ _) eqn:Hc.
    + rewrite !of_type_cons, IH. case_bool_decide; case_bool_decide; reflexivity.
    + apply Nat.compare_lt_iff in Hc.
      rewrite of_type_cons.
      destruct (decide (schema_type d = t)) as [<-|Hne].
      * assert (Hnil : of_type (schema_type d) (y :: l) = []).
        { apply of_type_nil_above. constructor; [lia|].
          eapply Forall_impl; [exact Hall|]. unfold rank_le. intros z Hz. lia. }
        rewrite Hnil, bool_decide_eq_true_2 by reflexivity. reflexivity.
      * rewrite bool_decide_eq_false_2 by exact Hne. reflexivity.
    + rewrite !of_type_cons, IH. case_bool_decide; case_bool_decide; reflexivity.
Qed.

Lemma insert_by_type_perm (d : SchemaDescriptor) (l : list SchemaDescriptor) :
  Permutation (Manifest.insert_by_type d l) (d :: l).
Proof.
  induction l as [|y l IH]; simpl; [reflexivity|].
  destruct (String.compare _ _); try reflexivity;
    (eapply perm_trans; [apply perm_skip, IH | apply perm_swap]).
Qed.

Lemma insert_by_type_sorted (d : SchemaDescriptor) (l : list SchemaDescriptor) :
  StronglySorted rank_le l -> StronglySorted rank_le (Manifest.insert_by_type d l).
Proof.
  induction 1 as [|y l Hs IH Hall]; simpl.
  - repeat constructor.
  - rewrite as_str_compare_rank. destruct (Nat.compare _ _) eqn:Hc.
    + apply Nat.compare_eq_iff in Hc. constructor; [exact IH|].
      apply List.Forall_forall. intros z Hz.
      apply (Permutation_in _ (insert_by_type_perm d l)) in Hz as [<-|Hz].
      * unfold rank_le. lia.
      * rewrite List.Forall_forall in Hall. apply Hall, Hz.
    + apply Nat.compare_lt_iff in Hc. constructor; [constructor; assumption|].
      constructor; [unfold rank_le; lia|].
      eapply Forall_impl; [exact Hall|]. unfold rank_le. intros z Hz. lia.
    + apply Nat.compare_gt_iff in Hc. constructor; [exact IH|].
      apply List.Forall_forall. intros z Hz.
      apply (Permutation_in _ (insert_by_type_perm d l)) in Hz as [<-|Hz].
      * unfold rank_le. lia.
      * rewrite List.Forall_forall in Hall. apply Hall, Hz.
Qed.

Lemma sort_by_type_aux_props (acc l : list SchemaDescriptor) :
  StronglySorted rank_le acc ->
  StronglySorted rank_le (Manifest.sort_by_type_aux acc l) /\
  (forall t, of_type t (Manifest.sort_by_type_aux acc l) = app (of_type t acc) (of_type t l)).
Proof.
  revert acc. induction l as [|d l IH]; intros acc Hacc; cbn [Manifest.sort_by_type_aux].
  - split; [exact Hacc|]. intros t. rewrite app_nil_r. reflexivity.
  - destruct (IH (Manifest.insert_by_type d acc)) as [Hs Hf];
      [apply insert_by_type_sorted, Hacc|].
    split; [exact Hs|]. intros t. rewrite Hf, insert_by_type_of_type by exact Hacc.
    rewrite of_type_cons. case_bool_decide; [rewrite <- app_assoc|]; reflexivity.
Qed.

Lemma sorted_rank_type (l : list SchemaDescriptor) : Sorted rank_le l -> Sorted type_le l.
Proof.
  induction 1 as [|a r Hr IH Hhd]; constructor; [exact IH|].
  destruct Hhd; constructor. apply type_le_rank_le. assumption.
Qed.

(** [sort_by_type] is a stable sort on the string form of the type. *)
Lemma sort_by_type_sorted_stable (l : list SchemaDescriptor) :
  Sorted type_le (Manifest.sort_by_type l) /\
  (forall t, of_type t (Manifest.sort_by_type l) = of_type t l).
Proof.
  destruct (sort_by_type_aux_props [] l) as [Hs Hf]; [constructor|].
  split.
  - apply sorted_rank_type, StronglySorted_Sorted, Hs.
  - intros t. unfold Manifest.sort_by_type. rewrite Hf. reflexivity.
Qed.

Lemma strongly_sorted_head (y z : SchemaDescriptor) (r : list SchemaDescriptor) :
  StronglySorted rank_le (y :: r) -> In z (y :: r) -> rank_le y z.
Proof.
  intros Hs [<-|Hz]; [unfold rank_le; lia|].
  apply StronglySorted_inv in Hs as [_ Hall]. rewrite List.Forall_forall in Hall. auto.
Qed.

Lemma of_type_self_nonempty (x : SchemaDescriptor) (l : list SchemaDescriptor) :
  exists r, of_type (schema_type x) (x :: l) = x :: r.
Proof. rewrite of_type_cons, bool_decide_eq_true_2 by reflexivity. eauto. Qed.

Lemma in_of_type (t : SchemaType) (z : SchemaDescriptor) (l : list SchemaDescriptor) :
  In z (of_type t l) -> In z l /\ schema_type z = t.
Proof.
  unfold of_type. rewrite filter_In. intros [Hin Hb].
  split; [exact Hin|]. apply bool_decide_eq_true_1 in Hb. exact Hb.
Qed.

(** Two lists sorted by type and with the same sub-list for every type are
    equal: a stable sort is unique. *)
Lemma sorted_of_type_unique (l1 l2 : list SchemaDescriptor) :
  StronglySorted rank_le l1 -> StronglySorted rank_le l2 ->
  (forall t, of_type t l1 = of_type t l2) -> l1 = l2.
Proof.
  revert l2. induction l1 as [|x r1 IH]; intros l2 H1 H2 Heq.
  - destruct l2 as [|y r2]; [reflexivity|].
    destruct (of_type_self_nonempty y r2) as [r Hr].
    specialize (Heq (schema_type y)). rewrite Hr in Heq. discriminate.
  - destruct l2 as [|y r2].
    + destruct (of_type_self_nonempty x r1) as [r Hr].
      specialize (Heq (schema_type x)). rewrite Hr in Heq. discriminate.
    + assert (Hxy : schema_type x = schema_type y).
      { apply type_rank_inj. apply Nat.le_antisymm.
        - destruct (of_type_self_nonempty y r2) as [r Hr].
          pose proof (Heq (schema_type y)) as Hy. rewrite Hr in Hy.
          assert (Hin : In y (of_type (schema_type y) (x :: r1))) by (rewrite Hy; left; reflexivity).
          apply in_of_type in Hin as [Hin Ht].
          pose proof (strongly_sorted_head _ _ _ H1 Hin) as Hle. unfold rank_le in Hle. lia.
        - destruct (of_type_self_nonempty x r1) as [r Hr].
          pose proof (Heq (schema_type x)) as Hx. rewrite Hr in Hx.
          assert (Hin : In x (of_type (schema_type x) (y :: r2))) by (rewrite <- Hx; left; reflexivity).
          apply in_of_type in Hin as [Hin Ht].
          pose proof (strongly_sorted_head _ _ _ H2 Hin) as Hle. unfold rank_le in Hle. lia. }
      pose proof (Heq (schema_type x)) as Hx.
      rewrite !of_type_cons, !bool_decide_eq_true_2 in Hx by congruence.
      injection Hx as <- Hr.
      f_equal. apply IH.
      * apply StronglySorted_inv in H1 as [H1 _]. exact H1.
      * apply StronglySorted_inv in H2 as [H2 _]. exact H2.
      * intros t. destruct (decide (schema_type x = t)) as [<-|Hne]; [exact Hr|].
        specialize (Heq t). rewrite !of_type_cons, !bool_decide_eq_false_2 in Heq by exact Hne.
        exact Heq.
Qed.

(** C4: [calculate_manifest_checksum] is the empty string when the manifest
    has no descriptor; otherwise it is the hex SHA-256 digest of the hash
    fields, concatenated without separator, of the descriptors sorted
    (stably) by the lexicographic string form of their [schema_type]:
    [sorted] is any list in that order whose descriptors of each type are
    those of the manifest, in the manifest's order. *)
Theorem calculate_manifest_checksum_spec (sha256_hex : string -> string)
  (m : SchemaManifest) (sorted : list SchemaDescriptor)
  (Hsorted : Sorted type_le sorted)
  (Hstable : forall t, of_type t sorted = of_type t (schemas m)) :
  Manifest.calculate_manifest_checksum sha256_hex m =
  Ok (match schemas m with
      | [] => ""
      | _ :: _ => sha256_hex (String.concat "" (List.map hash sorted))
      end).
Proof.
  unfold Manifest.calculate_manifest_checksum.
  destruct (schemas m) as [|d l] eqn:Hm; [reflexivity|].
  destruct (sort_by_type_sorted_stable (d :: l)) as [Hs1 Hf1].
  assert (Heq : Manifest.sort_by_type (d :: l) = sorted).
  { apply sorted_of_type_unique.
    - apply sorted_type_le_strong, Hs1.
    - apply sorted_type_le_strong, Hsorted.
    - intros t. rewrite Hf1, Hstable. reflexivity. }
  rewrite Heq. reflexivity.
Qed.

Definition checksum_example_manifest : SchemaManifest :=
  {| version := "1.0.0"; service_name := "svc"; service_version := "v1";
     instance_id := "i-1";
     schemas := [with_hash (inline_descriptor "") "h-openapi";
                 {| schema_type := AsyncAPI; spec_version := "3.0.0";
                    location := location (inline_descriptor "");
                    content_type := "application/json"; inline_schema := Some (JObj []);
                    hash := "h-asyncapi"; size := 10; sd_metadata := None |}];
     endpoints := {| health := "/health"; graphql := None |};
     routing := {| strategy := Root; base_path := None |};
     checksum := "" |}.

Lemma calculate_manifest_checksum_spec_witness :
  Sorted type_le (List.rev (schemas checksum_example_manifest)) /\
  Manifest.calculate_manifest_checksum (fun s => s) checksum_example_manifest =
  Ok "h-asyncapih-openapi".
Proof.
  assert (Hs : Sorted type_le (List.rev (schemas checksum_example_manifest))).
  { repeat constructor. unfold type_le. simpl. discriminate. }
  split; [exact Hs|].
  rewrite (calculate_manifest_checksum_spec (fun s => s) checksum_example_manifest
             (List.rev (schemas checksum_example_manifest)) Hs).
  - reflexivity.
  - intros t. destruct t; reflexivity.
Defined.

(** ** C5, C6, C10: the in-memory registry *)

Definition valid_manifest : SchemaManifest :=
  {| version := "1.0.0"; service_name := "test-service"; service_version := "v1.0.0";
     instance_id := "instance-1"; schemas := [];
     endpoints := {| health := "/health"; graphql := None |};
     routing := {| strategy := Root; base_path := None |};
     checksum := "" |}.

Definition invalid_manifest : SchemaManifest :=
  {| version := "2.0.0"; service_name := "test-service"; service_version := "v1.0.0";
     instance_id := "instance-1"; schemas := [];
     endpoints := {| health := "/health"; graphql := None |};
     routing := {| strategy := Root; base_path := None |};
     checksum := "" |}.

Lemma in_manifest_values (ms : gmap string SchemaManifest) (id : string) (m : SchemaManifest) :
  ms !! id = Some m -> In m (List.map snd (map_to_list ms)).
Proof.
  intros H. apply in_map_iff. exists (id, m). split; [reflexivity|].
  apply list_elem_of_In, elem_of_map_to_list, H.
Qed.

(** C5: once [register_manifest m] has succeeded on a valid [m], the
    registry returns [m] for its instance id and lists it both under its
    service name and under the empty (global) name. *)
Theorem register_then_get_and_list (sha256_hex : string -> string)
  (st : Memory.RegistryState) (m : SchemaManifest)
  (Hvalid : Manifest.validate sha256_hex m = Ok ())
  (Hok : fst (fst (Memory.register_manifest sha256_hex st m)) = Ok ()) :
  let st' := snd (fst (Memory.register_manifest sha256_hex st m)) in
  Memory.get_manifest st' (instance_id m) = Ok m /\
  (exists l, Memory.list_manifests st' (service_name m) = Ok l /\ In m l) /\
  (exists l, Memory.list_manifests st' "" = Ok l /\ In m l).
Proof.
  unfold Memory.register_manifest in *.
  destruct (Memory.closed st); [discriminate|]. rewrite Hvalid in *. cbn.
  assert (Hlook : <[instance_id m := m]> (Memory.manifests st) !! instance_id m = Some m)
    by apply lookup_insert_eq.
  split; [|split].
  - unfold Memory.get_manifest. cbn. rewrite Hlook. reflexivity.
  - eexists. split; [reflexivity|]. apply filter_In. split.
    + eapply in_manifest_values, Hlook.
    + apply orb_true_iff. right. apply String.eqb_refl.
  - eexists. split; [reflexivity|]. apply filter_In. split.
    + eapply in_manifest_values, Hlook.
    + reflexivity.
Qed.

Lemma register_then_get_and_list_witness :
  Manifest.validate (fun s => s) valid_manifest = Ok () /\
  Memory.get_manifest
    (snd (fst (Memory.register_manifest (fun s => s) Memory.new_registry valid_manifest)))
    "instance-1" = Ok valid_manifest.
Proof.
  assert (Hv : Manifest.validate (fun s => s) valid_manifest = Ok ()) by reflexivity.
  split; [exact Hv|].
  apply (register_then_get_and_list (fun s => s) Memory.new_registry valid_manifest Hv).
  reflexivity.
Defined.

Definition closed_registry : Memory.RegistryState :=
  {| Memory.manifests := ∅; Memory.reg_schemas := ∅; Memory.watchers := ∅;
     Memory.closed := true; Memory.next_sender := 0 |}.

(** C6 (counterexample): on a closed registry, registering a manifest that
    fails validation (incompatible version) returns "backend unavailable",
    not the validation error. *)
Lemma invalid_manifest_on_closed_registry :
  Manifest.validate (fun s => s) invalid_manifest =
    Err (IncompatibleVersion "2.0.0" "1.0.0") /\
  fst (fst (Memory.register_manifest (fun s => s) closed_registry invalid_manifest)) =
    Err (BackendUnavailable "registry is closed").
Proof. split; reflexivity. Qed.

(** C6 (amended): for a manifest that fails validation with error [e],
    [register_manifest] and [update_manifest] leave the registry state
    (manifests, schemas, watchers, closed flag) unchanged and send no
    event; on an open registry they return [e], on a closed one they return
    "backend unavailable" before validating. *)
Theorem invalid_manifest_no_change (sha256_hex : string -> string)
  (st : Memory.RegistryState) (m : SchemaManifest) (e : Error)
  (Hinvalid : Manifest.validate sha256_hex m = Err e) :
  (Memory.register_manifest sha256_hex st m =
     (if Memory.closed st then Err (BackendUnavailable "registry is closed") else Err e, st, [])) /\
  (Memory.update_manifest sha256_hex st m =
     (if Memory.closed st then Err (BackendUnavailable "registry is closed") else Err e, st, [])).
Proof.
  unfold Memory.register_manifest, Memory.update_manifest, Memory.backend_closed.
  destruct (Memory.closed st); [split; reflexivity|].
  rewrite Hinvalid. split; reflexivity.
Qed.

Lemma invalid_manifest_no_change_witness :
  Manifest.validate (fun s => s) invalid_manifest = Err (IncompatibleVersion "2.0.0" "1.0.0") /\
  Memory.register_manifest (fun s => s) Memory.new_registry invalid_manifest =
    (Err (IncompatibleVersion "2.0.0" "1.0.0"), Memory.new_registry, []).
Proof.
  assert (Hv : Manifest.validate (fun s => s) invalid_manifest =
                 Err (IncompatibleVersion "2.0.0" "1.0.0")) by reflexivity.
  split; [exact Hv|].
  exact (proj1 (invalid_manifest_no_change (fun s => s) Memory.new_registry invalid_manifest _ Hv)).
Defined.

(** C10: after [close], [get_manifest], [list_manifests] and [fetch_schema]
    answer from the retained state exactly as before and never report
    "backend unavailable"; the mutating operations, [watch_manifests] and
    [health] fail with "backend unavailable" and change nothing. *)
Theorem reads_survive_close (sha256_hex : string -> string) (st : Memory.RegistryState) :
  let st' := snd (fst (Memory.close st)) in
  Memory.closed st' = true /\
  (forall id, Memory.get_manifest st' id = Memory.get_manifest st id /\
              forall msg, Memory.get_manifest st' id <> Err (BackendUnavailable msg)) /\
  (forall svc, Memory.list_manifests st' svc = Memory.list_manifests st svc /\
               forall msg, Memory.list_manifests st' svc <> Err (BackendUnavailable msg)) /\
  (forall p, Memory.fetch_schema st' p = Memory.fetch_schema st p /\
             forall msg, Memory.fetch_schema st' p <> Err (BackendUnavailable msg)) /\
  (forall m, Memory.register_manifest sha256_hex st' m = Memory.backend_closed st') /\
  (forall m, Memory.update_manifest sha256_hex st' m = Memory.backend_closed st') /\
  (forall id, Memory.delete_manifest st' id = Memory.backend_closed st') /\
  (forall p s, Memory.publish_schema st' p s = Memory.backend_closed st') /\
  (forall p, Memory.delete_schema st' p = Memory.backend_closed st') /\
  (forall svc, Memory.watch_manifests st' svc = Memory.backend_closed st') /\
  Memory.health st' = Err (BackendUnavailable "registry is closed").
Proof.
  cbn zeta.
  assert (Hst : Memory.manifests (snd (fst (Memory.close st))) = Memory.manifests st /\
                Memory.reg_schemas (snd (fst (Memory.close st))) = Memory.reg_schemas st /\
                Memory.closed (snd (fst (Memory.close st))) = true).
  { unfold Memory.close. destruct (Memory.closed st) eqn:Hc; auto. }
  destruct Hst as (Hm & Hs & Hc).
  unfold Memory.register_manifest, Memory.update_manifest, Memory.delete_manifest,
    Memory.publish_schema, Memory.delete_schema, Memory.watch_manifests, Memory.health.
  rewrite Hc.
  repeat split; try reflexivity.
  - unfold Memory.get_manifest. rewrite Hm. reflexivity.
  - unfold Memory.get_manifest. destruct (_ !! _); discriminate.
  - unfold Memory.list_manifests. rewrite Hm. reflexivity.
  - unfold Memory.list_manifests. discriminate.
  - unfold Memory.fetch_schema. rewrite Hs. reflexivity.
  - unfold Memory.fetch_schema. destruct (_ !! _); discriminate.
Qed.

(** ** C7: [convert_openapi_to_routes] *)

Definition upper_case_schema : json :=
  JObj [("paths", JObj [("/users", JObj [("GET", JObj [])]);
                        ("/health", JObj [("summary", JStr "no verb")])])].

(** C7 (counterexample): an upper-case ["GET"] key is not recognised, and a
    path item without verb key yields no route: neither path gets a route. *)
Lemma upper_case_verb_no_route :
  Gateway.convert_openapi_to_routes valid_manifest upper_case_schema = [].
Proof. reflexivity. Qed.

Lemma string_append_assoc (a b c : string) : a ++ b ++ c = (a ++ b) ++ c.
Proof.
  induction a as [|x a IH]; [reflexivity|].
  rewrite !append_String. rewrite IH. reflexivity.
Qed.

(** The route built for path [p] whose item is the object [obj]. *)
Definition route_for (manifest : SchemaManifest) (p : string) (obj : list (string * json))
  (r : Gateway.ServiceRoute) : Prop :=
  Gateway.path r = p /\
  Gateway.methods r = List.map Gateway.to_uppercase
                        (List.filter Gateway.is_http_verb_key (List.map fst obj)) /\
  Gateway.target_url r = "http://" ++ service_name manifest ++ ":8080" ++ p /\
  Gateway.health_url r = "http://" ++ service_name manifest ++ ":8080" ++ health (endpoints manifest) /\
  Gateway.route_service_name r = service_name manifest /\
  Gateway.route_service_version r = service_version manifest /\
  Gateway.middleware r = [] /\
  Gateway.metadata r = [("schema_type", JStr "openapi")].

Definition has_verb_key (entry : string * json) : bool :=
  match snd entry with
  | JObj obj => negb (Nat.eqb (List.length (List.filter Gateway.is_http_verb_key (List.map fst obj))) 0)
  | _ => false
  end.

(** C7 (amended): when the schema's ["paths"] value is an object, the routes
    follow the order of the paths, one per path whose item is an object
    with at least one key among [get], [post], [put], [delete], [patch],
    [options], [head] (matched exactly, in lower case); its methods are
    those keys upper-cased in the item's key order, its target is
    ["http://<service_name>:8080<path>"] and its health URL
    ["http://<service_name>:8080<endpoints.health>"].  A path whose item has
    no such key gets no route; without a ["paths"] object there is none. *)
Theorem convert_openapi_to_routes_spec (manifest : SchemaManifest) (schema : json) :
  (forall ps, json_get "paths" schema = Some (JObj ps) ->
     List.map Gateway.path (Gateway.convert_openapi_to_routes manifest schema) =
       List.map fst (List.filter has_verb_key ps) /\
     (forall r, In r (Gateway.convert_openapi_to_routes manifest schema) <->
        exists p obj, In (p, JObj obj) ps /\ has_verb_key (p, JObj obj) = true /\
                      route_for manifest p obj r)) /\
  ((forall ps, json_get "paths" schema <> Some (JObj ps)) ->
     Gateway.convert_openapi_to_routes manifest schema = []).
Proof.
  unfold Gateway.convert_openapi_to_routes.
  split.
  - intros ps Hps. rewrite Hps. cbn [mbind option_bind as_object].
    split.
    + clear Hps. induction ps as [|[p item] ps IH]; [reflexivity|].
      cbn [List.flat_map List.filter]. rewrite List.map_app, IH.
      unfold has_verb_key; cbn [snd fst].
      destruct item as [| | | | |obj]; try reflexivity. cbn [as_object].
      unfold Gateway.route_methods.
      destruct (List.filter Gateway.is_http_verb_key (List.map fst obj)); reflexivity.
    + intros r. rewrite in_flat_map. split.
      * intros ([p item] & Hin & Hr).
        destruct item as [| | | | |obj]; try destruct Hr.
        cbn [as_object] in Hr. unfold Gateway.route_methods in Hr.
        destruct (List.filter Gateway.is_http_verb_key (List.map fst obj)) as [|k ks] eqn:Hf;
          [destruct Hr|].
        destruct Hr as [<-|[]].
        exists p, obj. split; [exact Hin|]. split.
        -- unfold has_verb_key. cbn [snd]. rewrite Hf. reflexivity.
        -- unfold route_for, Gateway.base_url. cbn [Gateway.path Gateway.methods
             Gateway.target_url Gateway.health_url Gateway.route_service_name
             Gateway.route_service_version Gateway.middleware Gateway.metadata].
           rewrite Hf. rewrite !string_append_assoc.
           repeat split.
      * intros (p & obj & Hin & Hv & (Hp & Hm & Ht & Hh & Hn & Hsv & Hmw & Hmd)).
        exists (p, JObj obj). split; [exact Hin|].
        cbn [as_object]. unfold Gateway.route_methods.
        unfold has_verb_key in Hv. cbn [snd] in Hv.
        destruct (List.filter Gateway.is_http_verb_key (List.map fst obj)) as [|k ks] eqn:Hf;
          [discriminate|].
        left. destruct r; cbn in Hp, Hm, Ht, Hh, Hn, Hsv, Hmw, Hmd. subst.
        unfold Gateway.base_url. rewrite !string_append_assoc. reflexivity.
  - intros Hno. destruct (json_get "paths" schema) as [[]|] eqn:E; try reflexivity.
    exfalso. eapply Hno. reflexivity.
Qed.

(** ** C8: [clear_cache] *)

Definition cached_client : Gateway.Client :=
  {| Gateway.manifest_cache := {[ "instance-1" := valid_manifest ]};
     Gateway.schema_cache := {[ "h" := JObj [] ]} |}.

(** C8 (counterexample): a client whose manifest cache holds an entry still
    holds it after [clear_cache]. *)
Lemma clear_cache_keeps_manifests :
  Gateway.manifest_cache (Gateway.clear_cache cached_client) !! "instance-1" = Some valid_manifest.
Proof. reflexivity. Qed.

(** C8 (amended): [clear_cache] empties the schema cache and leaves the
    manifest cache as it was. *)
Theorem clear_cache_spec (c : Gateway.Client) :
  Gateway.schema_cache (Gateway.clear_cache c) = ∅ /\
  Gateway.manifest_cache (Gateway.clear_cache c) = Gateway.manifest_cache c.
Proof. split; reflexivity. Qed.

(** ** C9: a service whose schema does not parse *)

(** The two lists of the merge state that only grow. *)
Definition lists_of (st : Merger.MergeState) : list string * list string :=
  (Merger.m_included st, Merger.m_warnings st).

Definition grows (st st' : Merger.MergeState) : Prop :=
  (exists a, Merger.m_included st' = app (Merger.m_included st) a) /\
  (exists b, Merger.m_warnings st' = app (Merger.m_warnings st) b).

Lemma grows_refl (st : Merger.MergeState) : grows st st.
Proof. split; exists []; rewrite app_nil_r; reflexivity. Qed.

Lemma grows_trans (s1 s2 s3 : Merger.MergeState) : grows s1 s2 -> grows s2 s3 -> grows s1 s3.
Proof.
  intros [[a Ha] [b Hb]] [[a' Ha'] [b' Hb']]. split.
  - exists (app a a'). rewrite Ha', Ha, app_assoc. reflexivity.
  - exists (app b b'). rewrite Hb', Hb, app_assoc. reflexivity.
Qed.

Lemma grows_of_lists (st st' : Merger.MergeState) : lists_of st' = lists_of st -> grows st st'.
Proof.
  unfold lists_of. intros H. injection H as H1 H2.
  split; [exists [] | exists []]; rewrite app_nil_r; assumption.
Qed.

Lemma fold_result_inv {S A} (R : S -> S -> Prop) (f : S -> A -> Result S)
  (Hrefl : forall s, R s s) (Htrans : forall s1 s2 s3, R s1 s2 -> R s2 s3 -> R s1 s3)
  (Hf : forall s x s', f s x = Ok s' -> R s s') :
  forall l s s', Merger.fold_result f s l = Ok s' -> R s s'.
Proof.
  induction l as [|x l IH]; intros s s' H; cbn in H.
  - injection H as <-. apply Hrefl.
  - destruct (f s x) as [s1|e] eqn:E; [|discriminate].
    eapply Htrans; [eapply Hf, E | eapply IH, H].
Qed.

Lemma fold_left_inv {S A T} (g : S -> T) (f : S -> A -> S)
  (Hf : forall s x, g (f s x) = g s) :
  forall l s, g (fold_left f l s) = g s.
Proof.
  induction l as [|x l IH]; intros s; [reflexivity|].
  cbn. rewrite IH. apply Hf.
Qed.

Lemma fold_result_app {S A} (f : S -> A -> Result S) (s : S) (l1 l2 : list A) :
  Merger.fold_result f s (app l1 l2) =
  match Merger.fold_result f s l1 with Ok s1 => Merger.fold_result f s1 l2 | Err e => Err e end.
Proof.
  revert s. induction l1 as [|x l1 IH]; intros s; [reflexivity|].
  cbn. destruct (f s x); [apply IH | reflexivity].
Qed.

Lemma apply_to_op_lists (a b c : string) (op : option Merger.Operation) (st : Merger.MergeState) :
  lists_of (snd (Merger.apply_to_op a b c op st)) = lists_of st.
Proof.
  unfold Merger.apply_to_op.
  destruct op as [o|]; [|reflexivity].
  destruct (Merger.operation_id o); [|reflexivity].
  destruct (Merger.seen_operation_ids st !! _); reflexivity.
Qed.

Lemma apply_operation_prefixes_lists (it : Merger.PathItem) (a b c : string)
  (st : Merger.MergeState) :
  lists_of (snd (Merger.apply_operation_prefixes it a b c st)) = lists_of st.
Proof.
  unfold Merger.apply_operation_prefixes. cbv zeta.
  repeat match goal with
         | |- context [Merger.apply_to_op a b c ?o ?s] =>
             let E := fresh "E" in
             pose proof (apply_to_op_lists a b c o s) as E;
             destruct (Merger.apply_to_op a b c o s); cbn [snd] in E
         end.
  cbn [snd]. congruence.
Qed.

Lemma insert_prefixed_path_lists ctx st p it :
  lists_of (Merger.insert_prefixed_path ctx st p it) = lists_of st.
Proof.
  unfold Merger.insert_prefixed_path.
  pose proof (apply_operation_prefixes_lists it (Merger.ctx_operation_id_prefix ctx)
                (Merger.ctx_tag_prefix ctx) (Merger.ctx_service_name ctx) st) as E.
  destruct (Merger.apply_operation_prefixes _ _ _ _ _). exact E.
Qed.

Lemma merge_path_lists ctx st entry st' :
  Merger.merge_path ctx st entry = Ok st' -> lists_of st' = lists_of st.
Proof.
  unfold Merger.merge_path. destruct entry as [p it].
  destruct (Merger.seen_paths st !! p);
    [destruct (Merger.ctx_strategy ctx)|]; intros H; try discriminate;
    injection H as <-; rewrite ?insert_prefixed_path_lists; reflexivity.
Qed.

Lemma merge_component_schema_lists ctx st entry :
  lists_of (Merger.merge_component_schema ctx st entry) = lists_of st.
Proof.
  unfold Merger.merge_component_schema. destruct entry as [n o].
  destruct (Merger.seen_components st !! n); [destruct (Merger.is_skip _)|]; reflexivity.
Qed.

Lemma merge_security_scheme_lists ctx st entry st' :
  Merger.merge_security_scheme ctx st entry = Ok st' -> lists_of st' = lists_of st.
Proof.
  unfold Merger.merge_security_scheme. destruct entry as [n o].
  destruct (Merger.seen_security_schemes st !! n);
    [destruct (Merger.ctx_strategy ctx)|]; intros H; try discriminate;
    injection H as <-; reflexivity.
Qed.

Lemma merge_components_lists ctx st comps st' :
  Merger.merge_components ctx st comps = Ok st' -> lists_of st' = lists_of st.
Proof.
  unfold Merger.merge_components. cbv zeta. intros H.
  apply (fold_result_inv (fun s s' => lists_of s' = lists_of s)) in H.
  - rewrite H. change (lists_of (Merger.set_components ?s _ _ _)) with (lists_of s).
    apply (fold_left_inv lists_of). apply merge_component_schema_lists.
  - reflexivity.
  - intros s1 s2 s3 H1 H2. congruence.
  - apply merge_security_scheme_lists.
Qed.

Lemma merge_tag_lists cfg ctx st t :
  lists_of (Merger.merge_tag cfg ctx st t) = lists_of st.
Proof.
  unfold Merger.merge_tag.
  repeat match goal with
         | |- context [match ?x with _ => _ end] => destruct x
         end; reflexivity.
Qed.

Lemma merge_parsed_lists cfg m st p st' :
  Merger.merge_parsed cfg m st p = Ok st' -> lists_of st' = lists_of st.
Proof.
  unfold Merger.merge_parsed. cbv zeta. cbn [mbind result_mbind].
  destruct (Merger.fold_result _ st _) as [s1|e] eqn:E1; [|discriminate].
  apply (fold_result_inv (fun s s' => lists_of s' = lists_of s)) in E1;
    [| reflexivity | intros ??? ??; congruence | apply merge_path_lists].
  destruct (Merger.components p) as [comps|]; cbn [mbind result_mbind].
  - match goal with |- context [Merger.merge_components ?c s1 comps] => destruct (Merger.merge_components c s1 comps) as [s2|e] eqn:E2 end; [|discriminate].
    apply merge_components_lists in E2. cbn [mbind result_mbind].
    intros H. injection H as <-.
    rewrite (fold_left_inv lists_of); [congruence|]. apply merge_tag_lists.
  - intros H. injection H as <-.
    rewrite (fold_left_inv lists_of); [congruence|]. apply merge_tag_lists.
Qed.

Lemma merge_service_grows cfg st s st' :
  Merger.merge_service cfg st s = Ok st' -> grows st st'.
Proof.
  unfold Merger.merge_service. cbv zeta.
  assert (Hinc : grows st (Merger.push_included st (service_name (Merger.ss_manifest s)))).
  { split; [eexists; reflexivity | exists []; rewrite app_nil_r; reflexivity]. }
  destruct (negb _).
  - intros H. injection H as <-.
    split; exists []; rewrite app_nil_r; reflexivity.
  - destruct (Merger.parsed s) as [p|].
    + intros H. apply merge_parsed_lists, grows_of_lists in H. eapply grows_trans; eassumption.
    + destruct (Merger.parse_openapi_schema _) as [p|e].
      * intros H. apply merge_parsed_lists, grows_of_lists in H. eapply grows_trans; eassumption.
      * intros H. injection H as <-. eapply grows_trans; [exact Hinc|].
        split; [exists []; rewrite app_nil_r; reflexivity | eexists; reflexivity].
Qed.

Definition parse_failure_warning (svc : string) (e : Error) : string :=
  "Failed to parse schema for " ++ svc ++ ": " ++ Merger.error_display e.

(** C9: a service that passes the inclusion check but whose raw schema does
    not parse adds a warning and its name to the included services, and
    nothing else: paths, components, tags, conflicts and the [seen_*] maps
    are those before it.  In the result of [Merger::merge] over any list of
    services containing it, its name is among [included_services] and the
    warning among [warnings]. *)
Theorem merge_unparsable_schema_included (cfg : Merger.MergerConfig)
  (s : Merger.ServiceSchema) (e : Error)
  (Hinc : Merger.should_include_in_merge s = true)
  (Hnone : Merger.parsed s = None)
  (Hparse : Merger.parse_openapi_schema (Merger.ss_schema s) = Err e) :
  let svc := service_name (Merger.ss_manifest s) in
  (forall st, exists st',
     Merger.merge_service cfg st s = Ok st' /\
     Merger.m_paths st' = Merger.m_paths st /\
     Merger.m_components st' = Merger.m_components st /\
     Merger.m_tags st' = Merger.m_tags st /\
     Merger.m_conflicts st' = Merger.m_conflicts st /\
     Merger.m_excluded st' = Merger.m_excluded st /\
     Merger.seen_paths st' = Merger.seen_paths st /\
     Merger.seen_components st' = Merger.seen_components st /\
     Merger.seen_operation_ids st' = Merger.seen_operation_ids st /\
     Merger.seen_tags st' = Merger.seen_tags st /\
     Merger.seen_security_schemes st' = Merger.seen_security_schemes st /\
     Merger.m_included st' = app (Merger.m_included st) [svc] /\
     Merger.m_warnings st' = app (Merger.m_warnings st) [parse_failure_warning svc e]) /\
  (forall pre post r, Merger.merge cfg (app pre (s :: post)) = Ok r ->
     In svc (Merger.included_services r) /\
     In (parse_failure_warning svc e) (Merger.warnings r)).
Proof.
  intros svc.
  assert (Hstep : forall st, Merger.merge_service cfg st s =
            Ok (Merger.push_warning (Merger.push_included st svc) (parse_failure_warning svc e))).
  { intros st. unfold Merger.merge_service. rewrite Hinc, Hnone, Hparse. reflexivity. }
  split.
  - intros st. eexists. split; [apply Hstep|]. repeat split.
  - intros pre post r H. unfold Merger.merge in H. cbn [mbind result_mbind] in H.
    rewrite fold_result_app in H.
    destruct (Merger.fold_result _ Merger.init_state pre) as [s1|err]; [|discriminate].
    cbn [Merger.fold_result] in H. rewrite Hstep in H.
    destruct (Merger.fold_result _ _ post) as [s2|err] eqn:E; [|discriminate].
    injection H as <-.
    apply (fold_result_inv grows) in E;
      [| apply grows_refl | apply grows_trans | apply merge_service_grows].
    destruct E as [[a Ha] [b Hb]]. cbn [Merger.finish Merger.included_services Merger.warnings].
    rewrite Ha, Hb. cbn [Merger.push_warning Merger.push_included Merger.m_included Merger.m_warnings].
    split; apply in_or_app; left; apply in_or_app; right; left; reflexivity.
Qed.

Definition openapi_service_manifest : SchemaManifest :=
  {| version := "1.0.0"; service_name := "broken-service"; service_version := "v1";
     instance_id := "broken-1"; schemas := [inline_descriptor ""];
     endpoints := {| health := "/health"; graphql := None |};
     routing := {| strategy := Root; base_path := None |};
     checksum := "" |}.

Definition unparsable_service : Merger.ServiceSchema :=
  {| Merger.ss_manifest := openapi_service_manifest; Merger.ss_schema := JStr "not an object";
     Merger.parsed := None |}.

Definition default_merger_config : Merger.MergerConfig :=
  {| Merger.default_conflict_strategy := Prefix; Merger.merged_title := "Merged API";
     Merger.merged_description := "merged"; Merger.merged_version := "1.0.0";
     Merger.include_service_tags := true; Merger.sort_output := true;
     Merger.config_servers := [] |}.

Lemma merge_unparsable_schema_included_witness :
  Merger.should_include_in_merge unparsable_service = true /\
  Merger.parsed unparsable_service = None /\
  Merger.parse_openapi_schema (Merger.ss_schema unparsable_service) =
    Err (InvalidSchema "schema must be an object") /\
  (forall pre post r,
     Merger.merge default_merger_config (app pre (unparsable_service :: post)) = Ok r ->
     In "broken-service" (Merger.included_services r)).
Proof.
  split; [reflexivity|]. split; [reflexivity|]. split; [reflexivity|].
  intros pre post r H.
  exact (proj1 (proj2 (merge_unparsable_schema_included default_merger_config
                         unparsable_service (InvalidSchema "schema must be an object")
                         eq_refl eq_refl eq_refl) pre post r H)).
Defined.

(** * Further properties of the crate *)

(** ** [manifest.rs]: construction, schemas, capabilities, checksum *)

(** A manifest fresh from [new_manifest] never validates: its health
    endpoint is empty, so with a service name and an instance id the
    validation fails on [endpoints.health]. *)
Theorem new_manifest_never_validates (sha256_hex : string -> string) (svc ver id : string) :
  Manifest.validate sha256_hex (Manifest.new_manifest svc ver id) <> Ok () /\
  (svc <> "" -> id <> "" ->
   Manifest.validate sha256_hex (Manifest.new_manifest svc ver id) =
     Err (Validation "endpoints.health" "health endpoint is required")).
Proof.
  unfold Manifest.validate, Manifest.new_manifest, Manifest.is_empty.
  cbn [version service_name instance_id endpoints health].
  assert (Hc : Version.is_compatible Version.PROTOCOL_VERSION = true) by reflexivity.
  rewrite Hc. cbn [negb].
  split.
  - destruct (String.eqb svc ""); [discriminate|].
    destruct (String.eqb id ""); discriminate.
  - intros Hs Hi.
    destruct (String.eqb svc "") eqn:Es; [apply String.eqb_eq in Es; contradiction|].
    destruct (String.eqb id "") eqn:Ei; [apply String.eqb_eq in Ei; contradiction|].
    reflexivity.
Qed.

Lemma calculate_manifest_checksum_set_checksum (sha256_hex : string -> string)
  (m : SchemaManifest) (c : string) :
  Manifest.calculate_manifest_checksum sha256_hex (Manifest.set_checksum m c) =
  Manifest.calculate_manifest_checksum sha256_hex m.
Proof. reflexivity. Qed.

(** [update_checksum] always succeeds, stores the manifest checksum, and
    afterwards the checksum verification of [validate] always passes: the
    updated manifest validates exactly when the manifest without checksum
    does, with the same error otherwise. *)
Theorem update_checksum_then_validate (sha256_hex : string -> string) (m : SchemaManifest) :
  exists m' c,
    Manifest.update_checksum sha256_hex m = Ok m' /\
    Manifest.calculate_manifest_checksum sha256_hex m = Ok c /\
    checksum m' = c /\
    Manifest.validate sha256_hex m' = Manifest.validate sha256_hex (Manifest.set_checksum m "").
Proof.
  assert (Hcalc : exists c, Manifest.calculate_manifest_checksum sha256_hex m = Ok c).
  { unfold Manifest.calculate_manifest_checksum. destruct (schemas m); eexists; reflexivity. }
  destruct Hcalc as [c Hc].
  exists (Manifest.set_checksum m c), c.
  unfold Manifest.update_checksum. rewrite Hc. split; [reflexivity|].
  split; [reflexivity|]. split; [reflexivity|].
  unfold Manifest.validate.
  rewrite !calculate_manifest_checksum_set_checksum, Hc.
  cbn [Manifest.set_checksum version service_name instance_id endpoints schemas checksum].
  destruct (negb (Version.is_compatible (version m))); [reflexivity|].
  destruct (Manifest.is_empty (service_name m)); [reflexivity|].
  destruct (Manifest.is_empty (instance_id m)); [reflexivity|].
  destruct (Manifest.is_empty (health (endpoints m))); [reflexivity|].
  cbn [mbind result_mbind].
  destruct (Manifest.validate_descriptors 0 (schemas m)); [|reflexivity].
  unfold Manifest.is_empty. cbn [String.eqb negb].
  destruct (String.eqb c "") eqn:E; [reflexivity|]. cbn [negb].
  rewrite String.eqb_refl. reflexivity.
Qed.

(** A manifest that is valid without checksum is rejected with
    [ChecksumMismatch expected actual] when it carries a non-empty checksum
    other than the one [calculate_manifest_checksum] computes. *)
Theorem stale_checksum_rejected (sha256_hex : string -> string) (m : SchemaManifest)
  (c expected : string)
  (Hcalc : Manifest.calculate_manifest_checksum sha256_hex m = Ok expected)
  (Hvalid : Manifest.validate sha256_hex (Manifest.set_checksum m "") = Ok ())
  (Hne : c <> "") (Hdiff : c <> expected) :
  Manifest.validate sha256_hex (Manifest.set_checksum m c) = Err (ChecksumMismatch expected c).
Proof.
  revert Hvalid. unfold Manifest.validate.
  rewrite !calculate_manifest_checksum_set_checksum, Hcalc.
  cbn [Manifest.set_checksum version service_name instance_id endpoints schemas checksum].
  destruct (negb (Version.is_compatible (version m))); [discriminate|].
  destruct (Manifest.is_empty (service_name m)); [discriminate|].
  destruct (Manifest.is_empty (instance_id m)); [discriminate|].
  destruct (Manifest.is_empty (health (endpoints m))); [discriminate|].
  cbn [mbind result_mbind].
  destruct (Manifest.validate_descriptors 0 (schemas m)); [|discriminate].
  intros _. unfold Manifest.is_empty.
  destruct (String.eqb c "") eqn:E; [apply String.eqb_eq in E; contradiction|].
  cbn [negb].
  destruct (String.eqb c expected) eqn:E'; [apply String.eqb_eq in E'; contradiction|].
  reflexivity.
Qed.

Lemma stale_checksum_rejected_witness :
  Manifest.validate (fun s => s) (Manifest.set_checksum valid_manifest "abc") =
    Err (ChecksumMismatch "" "abc").
Proof.
  apply (stale_checksum_rejected (fun s => s) valid_manifest "abc" "");
    [reflexivity | reflexivity | discriminate | discriminate].
Defined.

Lemma SchemaType_eqb_eq (a b : SchemaType) : Manifest.SchemaType_eqb a b = true <-> a = b.
Proof. destruct a, b; cbn; split; congruence. Qed.

(** [get_schema] returns the earliest descriptor of a type: adding a
    descriptor never changes the answer for a type already present, and
    makes a type not yet present retrievable. *)
Theorem get_schema_add_schema (m : SchemaManifest) (d x : SchemaDescriptor) (t : SchemaType) :
  (Manifest.get_schema m t = Some x -> Manifest.get_schema (Manifest.add_schema m d) t = Some x) /\
  (Manifest.get_schema m (schema_type d) = None ->
   Manifest.get_schema (Manifest.add_schema m d) (schema_type d) = Some d).
Proof.
  unfold Manifest.get_schema, Manifest.add_schema. cbn [schemas].
  generalize (schemas m) as l.
  induction l as [|s l IH]; cbn.
  - split; [discriminate|]. intros _.
    assert (H : Manifest.SchemaType_eqb (schema_type d) (schema_type d) = true)
      by (apply SchemaType_eqb_eq; reflexivity).
    rewrite H. reflexivity.
  - destruct (Manifest.SchemaType_eqb (schema_type s) t) eqn:E1;
      destruct (Manifest.SchemaType_eqb (schema_type s) (schema_type d)) eqn:E2;
      destruct IH as [IH1 IH2]; split; intros H; try discriminate; auto.
Qed.

(** [add_capability] keeps the capability list free of duplicates, keeps
    the capabilities already there in their order, adds a missing one at
    the end, is idempotent, and [has_capability] holds afterwards. *)
Theorem add_capability_spec (caps : list string) (cap : string) :
  (NoDup caps -> NoDup (Manifest.add_capability caps cap)) /\
  (exists rest, Manifest.add_capability caps cap = app caps rest) /\
  (~ In cap caps -> Manifest.add_capability caps cap = app caps [cap]) /\
  Manifest.add_capability (Manifest.add_capability caps cap) cap = Manifest.add_capability caps cap /\
  Manifest.has_capability (Manifest.add_capability caps cap) cap = true.
Proof.
  assert (Hex : forall l, List.existsb (String.eqb cap) l = true <-> In cap l).
  { intros l. rewrite existsb_exists. split.
    - intros (x & Hx & E). apply String.eqb_eq in E. subst. exact Hx.
    - intros H. exists cap. split; [exact H | apply String.eqb_refl]. }
  assert (Hhas : forall l, Manifest.has_capability l cap = true <-> In cap l).
  { intros l. unfold Manifest.has_capability. rewrite existsb_exists. split.
    - intros (x & Hx & E). apply String.eqb_eq in E. subst. exact Hx.
    - intros H. exists cap. split; [exact H | apply String.eqb_refl]. }
  unfold Manifest.add_capability.
  destruct (List.existsb (String.eqb cap) caps) eqn:E.
  - apply Hex in E. repeat split.
    + intros H; exact H.
    + exists []. rewrite app_nil_r. reflexivity.
    + intros Hn. contradiction.
    + apply Hex in E. rewrite E. reflexivity.
    + apply Hhas. apply Hex, Hex, E.
  - assert (Hn : ~ In cap caps) by (intros H; apply Hex in H; congruence).
    assert (Hin : In cap (app caps [cap])) by (apply in_or_app; right; left; reflexivity).
    repeat split.
    + intros Hnd. apply NoDup_app. split; [exact Hnd|]. split; [|apply NoDup_singleton].
      intros x Hx Hx'. apply list_elem_of_singleton in Hx'. subst x.
      apply Hn. apply list_elem_of_In. exact Hx.
    + exists [cap]. reflexivity.
    + apply Hex in Hin. rewrite Hin. reflexivity.
    + apply Hhas. exact Hin.
Qed.

(** ** [manifest.rs]: [diff_manifests] *)

(** The last descriptor of type [t] in a list: the one the [HashMap] built
    by [diff_manifests] keeps. *)
Definition last_of_type (l : list SchemaDescriptor) (t : SchemaType) : option SchemaDescriptor :=
  last (List.filter (fun s => bool_decide (schema_type s = t)) l).

Lemma schema_map_fold_lookup (l : list SchemaDescriptor) (m : gmap SchemaType SchemaDescriptor)
  (t : SchemaType) :
  fold_left (fun m s => <[schema_type s := s]> m) l m !! t =
  match last_of_type l t with Some d => Some d | None => m !! t end.
Proof.
  unfold last_of_type. revert m.
  induction l as [|s l IH]; intros m; [reflexivity|].
  cbn [fold_left List.filter]. rewrite IH.
  case_bool_decide as E.
  - rewrite last_cons. destruct (last _); [reflexivity|].
    subst t. apply lookup_insert_eq.
  - destruct (last _); [reflexivity|]. apply lookup_insert_ne. exact E.
Qed.

Lemma schema_map_lookup (l : list SchemaDescriptor) (t : SchemaType) :
  Diff.schema_map l !! t = last_of_type l t.
Proof.
  unfold Diff.schema_map. rewrite schema_map_fold_lookup.
  destruct (last_of_type l t); reflexivity.
Qed.

Lemma last_of_type_type (l : list SchemaDescriptor) (t : SchemaType) (d : SchemaDescriptor) :
  last_of_type l t = Some d -> schema_type d = t.
Proof.
  unfold last_of_type. intros H. apply last_Some_elem_of, list_elem_of_In in H.
  apply filter_In in H as [_ H]. apply bool_decide_eq_true in H. exact H.
Qed.

Lemma diff_added_fold (om : gmap SchemaType SchemaDescriptor)
  (L : list (SchemaType * SchemaDescriptor)) (a : list SchemaDescriptor)
  (c : list Diff.SchemaChangeDiff) :
  fold_left (fun '(a, c) '(t, ns) =>
               match om !! t with
               | Some os =>
                   if negb (String.eqb (hash os) (hash ns))
                   then (a, app c [{| Diff.change_schema_type := t; Diff.old_hash := hash os;
                                      Diff.new_hash := hash ns |}])
                   else (a, c)
               | None => (app a [ns], c)
               end) L (a, c) =
  (app a (omap (fun '(t, ns) => match om !! t with Some _ => None | None => Some ns end) L),
   app c (omap (fun '(t, ns) =>
                  match om !! t with
                  | Some os =>
                      if negb (String.eqb (hash os) (hash ns))
                      then Some {| Diff.change_schema_type := t; Diff.old_hash := hash os;
                                   Diff.new_hash := hash ns |}
                      else None
                  | None => None
                  end) L)).
Proof.
  revert a c. induction L as [|[t ns] L IH]; intros a c.
  - cbn. rewrite !app_nil_r. reflexivity.
  - cbn [fold_left]. destruct (om !! t) as [os|] eqn:E.
    + destruct (negb (String.eqb (hash os) (hash ns))) eqn:E2.
      * rewrite IH. cbn [omap list_omap]. rewrite E, E2. cbn.
        rewrite <- app_assoc. reflexivity.
      * rewrite IH. cbn [omap list_omap]. rewrite E, E2. reflexivity.
    + rewrite IH. cbn [omap list_omap]. rewrite E. cbn.
      rewrite <- app_assoc. reflexivity.
Qed.

Lemma diff_removed_fold (nm : gmap SchemaType SchemaDescriptor)
  (L : list (SchemaType * SchemaDescriptor)) (r : list SchemaDescriptor) :
  fold_left (fun r '(t, os) => match nm !! t with Some _ => r | None => app r [os] end) L r =
  app r (omap (fun '(t, os) => match nm !! t with Some _ => None | None => Some os end) L).
Proof.
  revert r. induction L as [|[t os] L IH]; intros r.
  - cbn. rewrite app_nil_r. reflexivity.
  - cbn [fold_left]. rewrite IH. cbn [omap list_omap].
    destruct (nm !! t); [reflexivity|]. cbn. rewrite <- app_assoc. reflexivity.
Qed.

Lemma in_schema_map_list (l : list SchemaDescriptor) (t : SchemaType) (d : SchemaDescriptor) :
  (t, d) ∈ map_to_list (Diff.schema_map l) <-> last_of_type l t = Some d.
Proof. rewrite elem_of_map_to_list, schema_map_lookup. reflexivity. Qed.

Lemma diff_manifests_facts (old new : SchemaManifest) (old_caps new_caps : list string)
  (d : SchemaDescriptor) (t : SchemaType) (oh nh cap : string) :
  let D := Diff.diff_manifests old new old_caps new_caps in
  (In d (Diff.schemas_added D) <->
     last_of_type (schemas new) (schema_type d) = Some d /\
     last_of_type (schemas old) (schema_type d) = None) /\
  (In d (Diff.schemas_removed D) <->
     last_of_type (schemas old) (schema_type d) = Some d /\
     last_of_type (schemas new) (schema_type d) = None) /\
  (In {| Diff.change_schema_type := t; Diff.old_hash := oh; Diff.new_hash := nh |}
      (Diff.schemas_changed D) <->
     exists os ns, last_of_type (schemas old) t = Some os /\
                   last_of_type (schemas new) t = Some ns /\
                   hash os <> hash ns /\ oh = hash os /\ nh = hash ns) /\
  (In cap (Diff.capabilities_added D) <-> In cap new_caps /\ ~ In cap old_caps) /\
  (In cap (Diff.capabilities_removed D) <-> In cap old_caps /\ ~ In cap new_caps).
Proof.
  intros D. subst D. unfold Diff.diff_manifests. cbv zeta.
  rewrite diff_added_fold, diff_removed_fold.
  cbn [Diff.schemas_added Diff.schemas_removed Diff.schemas_changed
       Diff.capabilities_added Diff.capabilities_removed app].
  assert (Hcap : forall (a b : list string) x,
            In x (List.filter (fun c => negb (bool_decide (c ∈ (list_to_set a : gset string))))
                              (elements (list_to_set b : gset string))) <->
            In x b /\ ~ In x a).
  { intros a b x. rewrite filter_In, <- list_elem_of_In, elem_of_elements, elem_of_list_to_set.
    rewrite negb_true_iff, bool_decide_eq_false, elem_of_list_to_set, !list_elem_of_In.
    reflexivity. }
  split; [|split; [|split; [|split]]].
  - rewrite <- list_elem_of_In, list_elem_of_omap. split.
    + intros ([t' ns] & Hin & Hf). apply in_schema_map_list in Hin.
      rewrite schema_map_lookup in Hf.
      destruct (last_of_type (schemas old) t') eqn:E; [discriminate|].
      injection Hf as <-. apply last_of_type_type in Hin as Ht. rewrite Ht. auto.
    + intros [Hn Ho]. exists (schema_type d, d). split.
      * apply in_schema_map_list. exact Hn.
      * rewrite schema_map_lookup, Ho. reflexivity.
  - rewrite <- list_elem_of_In, list_elem_of_omap. split.
    + intros ([t' os] & Hin & Hf). apply in_schema_map_list in Hin.
      rewrite schema_map_lookup in Hf.
      destruct (last_of_type (schemas new) t') eqn:E; [discriminate|].
      injection Hf as <-. apply last_of_type_type in Hin as Ht. rewrite Ht. auto.
    + intros [Ho Hn]. exists (schema_type d, d). split.
      * apply in_schema_map_list. exact Ho.
      * rewrite schema_map_lookup, Hn. reflexivity.
  - rewrite <- list_elem_of_In, list_elem_of_omap. split.
    + intros ([t' ns] & Hin & Hf). apply in_schema_map_list in Hin.
      rewrite schema_map_lookup in Hf.
      destruct (last_of_type (schemas old) t') as [os|] eqn:E; [|discriminate].
      destruct (negb (String.eqb (hash os) (hash ns))) eqn:E2; [|discriminate].
      injection Hf as <- <- <-. exists os, ns. repeat split; auto.
      intros Heq. rewrite Heq, String.eqb_refl in E2. discriminate.
    + intros (os & ns & Ho & Hn & Hne & -> & ->). exists (t, ns). split.
      * apply in_schema_map_list. exact Hn.
      * rewrite schema_map_lookup, Ho.
        destruct (String.eqb (hash os) (hash ns)) eqn:E2;
          [apply String.eqb_eq in E2; contradiction|reflexivity].
  - apply Hcap.
  - apply Hcap.
Qed.

(** [diff_manifests old new] reports, for the last descriptor of each type
    in each manifest: a descriptor of [new] as added exactly when [old] has
    no descriptor of its type, one of [old] as removed exactly when [new]
    has none of its type, and a change [{t, old_hash, new_hash}] exactly
    when both have a descriptor of type [t] and their hashes differ; a
    capability is added exactly when it is in [new] and not in [old], and
    removed in the other direction. *)
Theorem diff_manifests_spec (old new : SchemaManifest) (old_caps new_caps : list string)
  (d : SchemaDescriptor) (t : SchemaType) (oh nh cap : string) :
  let D := Diff.diff_manifests old new old_caps new_caps in
  (In d (Diff.schemas_added D) <->
     last_of_type (schemas new) (schema_type d) = Some d /\
     last_of_type (schemas old) (schema_type d) = None) /\
  (In d (Diff.schemas_removed D) <->
     last_of_type (schemas old) (schema_type d) = Some d /\
     last_of_type (schemas new) (schema_type d) = None) /\
  (In {| Diff.change_schema_type := t; Diff.old_hash := oh; Diff.new_hash := nh |}
      (Diff.schemas_changed D) <->
     exists os ns, last_of_type (schemas old) t = Some os /\
                   last_of_type (schemas new) t = Some ns /\
                   hash os <> hash ns /\ oh = hash os /\ nh = hash ns) /\
  (In cap (Diff.capabilities_added D) <-> In cap new_caps /\ ~ In cap old_caps) /\
  (In cap (Diff.capabilities_removed D) <-> In cap old_caps /\ ~ In cap new_caps).
Proof. exact (diff_manifests_facts old new old_caps new_caps d t oh nh cap). Qed.

Lemma endpoints_eqb_refl (e : SchemaEndpoints) : Diff.endpoints_eqb e e = true.
Proof.
  unfold Diff.endpoints_eqb. rewrite String.eqb_refl.
  destruct (graphql e); [apply String.eqb_refl | reflexivity].
Qed.

(** Diffing a manifest (and capability list) against itself reports no
    change. *)
Theorem diff_manifests_self_no_changes (m : SchemaManifest) (caps : list string) :
  Diff.has_changes (Diff.diff_manifests m m caps caps) = false.
Proof.
  unfold Diff.has_changes.
  destruct (Diff.schemas_added (Diff.diff_manifests m m caps caps)) as [|d ?] eqn:Ea.
  2:{ exfalso. pose proof (proj1 (proj1 (diff_manifests_facts m m caps caps d OpenAPI "" "" "")))
        as H. cbv zeta in H. rewrite Ea in H. destruct (H (or_introl eq_refl)) as [H1 H2].
      congruence. }
  destruct (Diff.schemas_removed (Diff.diff_manifests m m caps caps)) as [|d ?] eqn:Er.
  2:{ exfalso. pose proof (proj1 (proj1 (proj2 (diff_manifests_facts m m caps caps d OpenAPI "" "" ""))))
        as H. cbv zeta in H. rewrite Er in H. destruct (H (or_introl eq_refl)) as [H1 H2].
      congruence. }
  destruct (Diff.schemas_changed (Diff.diff_manifests m m caps caps)) as [|[t oh nh] ?] eqn:Ec.
  2:{ exfalso. pose proof (proj1 (proj1 (proj2 (proj2 (diff_manifests_facts m m caps caps
        (Build_SchemaDescriptor OpenAPI "" (Build_SchemaLocation Inline None None) "" None "" 0 None)
        t oh nh ""))))) as H.
      cbv zeta in H. rewrite Ec in H. destruct (H (or_introl eq_refl)) as (os & ns & H1 & H2 & H3 & _).
      rewrite H1 in H2. injection H2 as ->. contradiction. }
  destruct (Diff.capabilities_added (Diff.diff_manifests m m caps caps)) as [|c ?] eqn:Eca.
  2:{ exfalso. pose proof (proj1 (proj2 (proj2 (proj2 (diff_manifests_facts m m caps caps
        (Build_SchemaDescriptor OpenAPI "" (Build_SchemaLocation Inline None None) "" None "" 0 None)
        OpenAPI "" "" c))))) as H.
      cbv zeta in H. rewrite Eca in H. destruct (proj1 H (or_introl eq_refl)). contradiction. }
  destruct (Diff.capabilities_removed (Diff.diff_manifests m m caps caps)) as [|c ?] eqn:Ecr.
  2:{ exfalso. pose proof (proj2 (proj2 (proj2 (proj2 (diff_manifests_facts m m caps caps
        (Build_SchemaDescriptor OpenAPI "" (Build_SchemaLocation Inline None None) "" None "" 0 None)
        OpenAPI "" "" c))))) as H.
      cbv zeta in H. rewrite Ecr in H. destruct (proj1 H (or_introl eq_refl)). contradiction. }
  cbn. unfold Diff.diff_manifests. cbv zeta.
  destruct (fold_left _ _ _). cbn [Diff.endpoints_changed]. rewrite endpoints_eqb_refl. reflexivity.
Qed.

(** ** [registry/memory.rs]: the other operations *)

(** The events [notify_watchers] sends for [ev] about service [svc]: one to
    each watcher of [svc], then one to each global watcher. *)
Definition deliveries_to (ws : gmap string (list Memory.Sender)) (svc : string)
  (ev : Memory.ManifestEvent) : list Memory.Delivery :=
  List.map (fun s => (s, ev)) (app (default [] (ws !! svc)) (default [] (ws !! ""))).

Lemma notify_watchers_deliveries (st : Memory.RegistryState) (svc : string) (ev : Memory.ManifestEvent) :
  Memory.notify_watchers st svc ev = deliveries_to (Memory.watchers st) svc ev.
Proof. unfold Memory.notify_watchers, deliveries_to. rewrite List.map_app. reflexivity. Qed.

(** On an open registry, [delete_manifest id] of a registered id succeeds:
    the id is no longer found, every other id and the schemas and watchers
    are as before, and a [Removed] event with the deleted manifest goes to
    each watcher of its service and each global watcher.  For an id not
    registered it fails with [ManifestNotFound] and changes nothing. *)
Theorem delete_manifest_spec (st : Memory.RegistryState) (id : string)
  (Hopen : Memory.closed st = false) :
  (Memory.manifests st !! id = None ->
   Memory.delete_manifest st id = (Err ManifestNotFound, st, [])) /\
  (forall m, Memory.manifests st !! id = Some m ->
   let o := Memory.delete_manifest st id in
   let st' := snd (fst o) in
   fst (fst o) = Ok () /\
   Memory.get_manifest st' id = Err ManifestNotFound /\
   (forall id', id' <> id -> Memory.get_manifest st' id' = Memory.get_manifest st id') /\
   Memory.reg_schemas st' = Memory.reg_schemas st /\
   Memory.watchers st' = Memory.watchers st /\
   snd o = deliveries_to (Memory.watchers st) (service_name m)
             {| Memory.event_type := Memory.Removed; Memory.ev_manifest := m |}).
Proof.
  unfold Memory.delete_manifest. rewrite Hopen. split.
  - intros H. rewrite H. reflexivity.
  - intros m H. rewrite H. cbn zeta. cbn [fst snd].
    unfold Memory.get_manifest, Memory.set_manifests. cbn [Memory.manifests Memory.reg_schemas Memory.watchers].
    split; [reflexivity|]. split; [rewrite lookup_delete_eq; reflexivity|].
    split; [intros id' Hne; rewrite lookup_delete_ne by congruence; reflexivity|].
    split; [reflexivity|]. split; [reflexivity|].
    rewrite notify_watchers_deliveries; reflexivity.
Qed.

Lemma delete_manifest_spec_witness :
  Memory.closed Memory.new_registry = false /\
  Memory.delete_manifest Memory.new_registry "instance-1" =
    (Err ManifestNotFound, Memory.new_registry, []).
Proof.
  split; [reflexivity|].
  apply (proj1 (delete_manifest_spec Memory.new_registry "instance-1" eq_refl)). reflexivity.
Defined.

(** Registering a valid manifest under a fresh instance id on an open
    registry and then deleting that id succeeds and restores the manifest
    map exactly; the deletion sends the [Removed] event for the manifest to
    the watchers of its service and the global watchers. *)
Theorem register_then_delete_restores (sha256_hex : string -> string)
  (st : Memory.RegistryState) (m : SchemaManifest)
  (Hopen : Memory.closed st = false)
  (Hvalid : Manifest.validate sha256_hex m = Ok ())
  (Hfresh : Memory.manifests st !! instance_id m = None) :
  let st1 := snd (fst (Memory.register_manifest sha256_hex st m)) in
  let o := Memory.delete_manifest st1 (instance_id m) in
  fst (fst o) = Ok () /\
  Memory.manifests (snd (fst o)) = Memory.manifests st /\
  snd o = deliveries_to (Memory.watchers st) (service_name m)
            {| Memory.event_type := Memory.Removed; Memory.ev_manifest := m |}.
Proof.
  cbv zeta. unfold Memory.register_manifest. rewrite Hopen, Hvalid. cbn [fst snd].
  unfold Memory.delete_manifest, Memory.set_manifests.
  cbn [Memory.closed Memory.manifests Memory.watchers]. rewrite Hopen.
  rewrite lookup_insert_eq. cbn [fst snd Memory.manifests].
  split; [reflexivity|]. split.
  - rewrite delete_insert_eq. apply delete_id. exact Hfresh.
  - rewrite notify_watchers_deliveries; reflexivity.
Qed.

Lemma register_then_delete_restores_witness :
  Memory.manifests
    (snd (fst (Memory.delete_manifest
       (snd (fst (Memory.register_manifest (fun s => s) Memory.new_registry valid_manifest)))
       "instance-1"))) = ∅.
Proof.
  exact (proj1 (proj2 (register_then_delete_restores (fun s => s) Memory.new_registry
                         valid_manifest eq_refl eq_refl eq_refl))).
Defined.

(** On an open registry, [update_manifest] of a valid manifest whose
    instance id is not registered fails with [ManifestNotFound] and changes
    nothing; when the id is registered it replaces that entry only, and an
    [Updated] event with the new manifest goes to the watchers of its
    service and the global watchers. *)
Theorem update_manifest_spec (sha256_hex : string -> string)
  (st : Memory.RegistryState) (m : SchemaManifest)
  (Hopen : Memory.closed st = false)
  (Hvalid : Manifest.validate sha256_hex m = Ok ()) :
  (Memory.manifests st !! instance_id m = None ->
   Memory.update_manifest sha256_hex st m = (Err ManifestNotFound, st, [])) /\
  (is_Some (Memory.manifests st !! instance_id m) ->
   let o := Memory.update_manifest sha256_hex st m in
   let st' := snd (fst o) in
   fst (fst o) = Ok () /\
   Memory.get_manifest st' (instance_id m) = Ok m /\
   (forall id', id' <> instance_id m -> Memory.get_manifest st' id' = Memory.get_manifest st id') /\
   snd o = deliveries_to (Memory.watchers st) (service_name m)
             {| Memory.event_type := Memory.Updated; Memory.ev_manifest := m |}).
Proof.
  unfold Memory.update_manifest. rewrite Hopen, Hvalid. split.
  - intros H. rewrite H. reflexivity.
  - intros H. rewrite bool_decide_eq_true_2 by exact H. cbn zeta. cbn [negb fst snd].
    unfold Memory.get_manifest, Memory.set_manifests. cbn [Memory.manifests Memory.watchers].
    split; [reflexivity|]. split; [rewrite lookup_insert_eq; reflexivity|].
    split; [intros id' Hne; rewrite lookup_insert_ne by congruence; reflexivity|].
    rewrite notify_watchers_deliveries; reflexivity.
Qed.

Lemma update_manifest_spec_witness :
  Memory.update_manifest (fun s => s) Memory.new_registry valid_manifest =
    (Err ManifestNotFound, Memory.new_registry, []).
Proof.
  apply (proj1 (update_manifest_spec (fun s => s) Memory.new_registry valid_manifest
                  eq_refl eq_refl)).
  reflexivity.
Defined.

(** On an open registry, a published schema is fetched back at its path
    and [delete_schema] makes its path unknown ([SchemaNotFound]); both
    succeed whether or not the path was there before and leave the other
    paths and the manifests unchanged. *)
Theorem schema_publish_fetch_delete (st : Memory.RegistryState) (p p' : string) (schema : json)
  (Hopen : Memory.closed st = false) :
  let o1 := Memory.publish_schema st p schema in
  let o2 := Memory.delete_schema st p in
  fst (fst o1) = Ok () /\ Memory.fetch_schema (snd (fst o1)) p = Ok schema /\
  fst (fst o2) = Ok () /\ Memory.fetch_schema (snd (fst o2)) p = Err SchemaNotFound /\
  (p' <> p -> Memory.fetch_schema (snd (fst o1)) p' = Memory.fetch_schema st p' /\
              Memory.fetch_schema (snd (fst o2)) p' = Memory.fetch_schema st p') /\
  Memory.manifests (snd (fst o1)) = Memory.manifests st /\
  Memory.manifests (snd (fst o2)) = Memory.manifests st /\
  snd o1 = [] /\ snd o2 = [].
Proof.
  cbv zeta. unfold Memory.publish_schema, Memory.delete_schema, Memory.fetch_schema,
    Memory.set_schemas. rewrite Hopen. cbn [fst snd Memory.reg_schemas Memory.manifests].
  rewrite lookup_insert_eq, lookup_delete_eq.
  repeat split; try reflexivity.
  - rewrite lookup_insert_ne by congruence. reflexivity.
  - rewrite lookup_delete_ne by congruence. reflexivity.
Qed.

Lemma schema_publish_fetch_delete_witness :
  Memory.fetch_schema (snd (fst (Memory.publish_schema Memory.new_registry "/s" (JObj []))))
    "/s" = Ok (JObj []).
Proof.
  exact (proj1 (proj2 (schema_publish_fetch_delete Memory.new_registry "/s" "/t" (JObj [])
                         eq_refl))).
Defined.

(** A watcher registered with [watch_manifests] on an open registry, under
    a manifest's service name or under the empty (global) name, is sent the
    [Added] event of every later successful registration of that manifest. *)
Theorem watch_then_register_notified (sha256_hex : string -> string)
  (st : Memory.RegistryState) (svc : string) (m : SchemaManifest)
  (Hopen : Memory.closed st = false)
  (Hvalid : Manifest.validate sha256_hex m = Ok ())
  (Hsvc : svc = service_name m \/ svc = "") :
  let o1 := Memory.watch_manifests st svc in
  let o2 := Memory.register_manifest sha256_hex (snd (fst o1)) m in
  fst (fst o1) = Ok () /\ fst (fst o2) = Ok () /\
  In (Memory.next_sender st, {| Memory.event_type := Memory.Added; Memory.ev_manifest := m |})
     (snd o2).
Proof.
  cbv zeta. unfold Memory.watch_manifests. rewrite Hopen. cbn [fst snd].
  unfold Memory.register_manifest. cbn [Memory.closed]. rewrite Hvalid. cbn [fst snd].
  split; [reflexivity|]. split; [reflexivity|].
  rewrite notify_watchers_deliveries. unfold deliveries_to.
  cbn [Memory.set_manifests Memory.watchers].
  apply in_map_iff. exists (Memory.next_sender st). split; [reflexivity|].
  apply in_or_app. destruct Hsvc as [-> | ->].
  - left. rewrite lookup_insert_eq. cbn. apply in_or_app. right. left. reflexivity.
  - right. rewrite lookup_insert_eq. cbn. apply in_or_app. right. left. reflexivity.
Qed.

Lemma watch_then_register_notified_witness :
  In (0, {| Memory.event_type := Memory.Added; Memory.ev_manifest := valid_manifest |})
     (snd (Memory.register_manifest (fun s => s)
             (snd (fst (Memory.watch_manifests Memory.new_registry ""))) valid_manifest)).
Proof.
  exact (proj2 (proj2 (watch_then_register_notified (fun s => s) Memory.new_registry ""
                         valid_manifest eq_refl eq_refl (or_intror eq_refl)))).
Defined.


(** ** [gateway/client.rs]: the schema cache and the route conversion *)

Lemma fetch_schema_shape (rf : string -> Result json) (c : Gateway.Client) (d : SchemaDescriptor) :
  (exists s, Gateway.schema_cache c !! hash d = Some s /\ Gateway.fetch_schema rf c d = (Ok s, c)) \/
  (Gateway.schema_cache c !! hash d = None /\
   ((exists s, Gateway.fetch_schema rf c d =
                 (Ok s, Gateway.set_schema_cache c (<[hash d := s]> (Gateway.schema_cache c)))) \/
    (exists e, Gateway.fetch_schema rf c d = (Err e, c)))).
Proof.
  unfold Gateway.fetch_schema.
  destruct (Gateway.schema_cache c !! hash d) as [s|] eqn:Hc;
    [left; exists s; split; reflexivity|right; split; [reflexivity|]].
  destruct (location_type (location d)).
  - right; eexists; reflexivity.
  - destruct (registry_path (location d)) as [p|]; [destruct (rf p)|];
      first [left; eexists; reflexivity | right; eexists; reflexivity].
  - destruct (inline_schema d);
      first [left; eexists; reflexivity | right; eexists; reflexivity].
Qed.

Lemma fetch_schema_keeps (rf : string -> Result json) (c : Gateway.Client) (d : SchemaDescriptor) :
  Gateway.manifest_cache (snd (Gateway.fetch_schema rf c d)) = Gateway.manifest_cache c /\
  (forall h s, Gateway.schema_cache c !! h = Some s ->
     Gateway.schema_cache (snd (Gateway.fetch_schema rf c d)) !! h = Some s).
Proof.
  destruct (fetch_schema_shape rf c d) as [[s [_ ->]] | [Hc [[s ->] | [e ->]]]];
    cbn [snd]; split; try reflexivity; try (intros; assumption).
  intros h s' Hs. cbn [Gateway.schema_cache Gateway.set_schema_cache].
  destruct (decide (h = hash d)) as [->|Hne]; [congruence|].
  rewrite lookup_insert_ne by congruence. exact Hs.
Qed.

(** [Client::fetch_schema] never touches the manifest cache and never
    drops a cached schema.  A successful fetch leaves the schema cached
    under the descriptor's hash, so that every later fetch of a descriptor
    with the same hash returns that schema, whatever its location; a failed
    fetch leaves the client unchanged; and a descriptor with an HTTP
    location that is not cached always fails with [SchemaFetchFailed]. *)
Theorem fetch_schema_cache (rf : string -> Result json) (c : Gateway.Client) (d : SchemaDescriptor) :
  let o := Gateway.fetch_schema rf c d in
  Gateway.manifest_cache (snd o) = Gateway.manifest_cache c /\
  (forall h s, Gateway.schema_cache c !! h = Some s -> Gateway.schema_cache (snd o) !! h = Some s) /\
  (forall s, fst o = Ok s ->
     Gateway.schema_cache (snd o) !! hash d = Some s /\
     (forall d', hash d' = hash d -> Gateway.fetch_schema rf (snd o) d' = (Ok s, snd o))) /\
  (forall e, fst o = Err e -> snd o = c) /\
  (Gateway.schema_cache c !! hash d = None -> location_type (location d) = HTTP ->
     o = (Err (SchemaFetchFailed "HTTP fetch not implemented"), c)).
Proof.
  cbv zeta. destruct (fetch_schema_keeps rf c d) as [Hm Hg].
  split; [exact Hm|]. split; [exact Hg|]. split; [|split].
  - intros s Hs. destruct (fetch_schema_shape rf c d) as [[s0 [Hc Ho]] | [Hc [[s0 Ho] | [e Ho]]]];
      rewrite Ho in Hs |- *; cbn [fst snd] in Hs |- *; [| |discriminate].
    + injection Hs as <-. split; [exact Hc|].
      intros d' Hd'. unfold Gateway.fetch_schema. rewrite Hd', Hc. reflexivity.
    + injection Hs as <-. cbn [Gateway.schema_cache Gateway.set_schema_cache].
      split; [apply lookup_insert_eq|].
      intros d' Hd'. unfold Gateway.fetch_schema. cbn [Gateway.schema_cache Gateway.set_schema_cache].
      rewrite Hd', lookup_insert_eq. reflexivity.
  - intros e He. destruct (fetch_schema_shape rf c d) as [[s0 [Hc Ho]] | [Hc [[s0 Ho] | [e0 Ho]]]];
      rewrite Ho in He |- *; cbn [fst snd] in He |- *; congruence.
  - intros Hc Hl. unfold Gateway.fetch_schema. rewrite Hc, Hl. reflexivity.
Qed.

(** The facts every route built for [manifest] carries. *)
Definition route_of_manifest (manifest : SchemaManifest) (r : Gateway.ServiceRoute) : Prop :=
  Gateway.route_service_name r = service_name manifest /\
  Gateway.route_service_version r = service_version manifest /\
  Gateway.health_url r = Gateway.base_url manifest ++ health (endpoints manifest) /\
  Gateway.target_url r = Gateway.base_url manifest ++ Gateway.path r /\
  Gateway.middleware r = [].

Lemma routes_of_schema_origin (manifest : SchemaManifest) (d : SchemaDescriptor) (s : json)
  (r : Gateway.ServiceRoute) :
  In r (Gateway.routes_of_schema manifest d s) -> route_of_manifest manifest r.
Proof.
  intros Hr. unfold Gateway.routes_of_schema in Hr.
  destruct (schema_type d); try (exact (False_rect _ Hr)); revert Hr.
  - unfold Gateway.convert_openapi_to_routes.
    destruct (json_get "paths" s ≫= as_object) as [paths|]; [|intros []].
    intros Hr. apply in_flat_map in Hr. destruct Hr as [[p pi] [_ Hr]].
    destruct (as_object pi) as [po|]; [|destruct Hr].
    destruct (Gateway.route_methods po); [destruct Hr|].
    destruct Hr as [<-|[]]. repeat split.
  - unfold Gateway.convert_asyncapi_to_routes.
    destruct (json_get "channels" s ≫= as_object) as [chans|]; [|intros []].
    intros Hr. apply in_map_iff in Hr. destruct Hr as [p [<- _]]. repeat split.
  - intros [<-|[]]. repeat split.
Qed.

Definition routed_schema_type (t : SchemaType) : bool :=
  match t with OpenAPI | AsyncAPI | GraphQL => true | _ => false end.

Lemma convert_descriptors_facts (rf : string -> Result json) (manifest : SchemaManifest)
  (ds : list SchemaDescriptor) : forall c,
  let o := Gateway.convert_descriptors rf manifest c ds in
  (forall r, In r (fst o) -> route_of_manifest manifest r) /\
  Gateway.manifest_cache (snd o) = Gateway.manifest_cache c /\
  (forall h s, Gateway.schema_cache c !! h = Some s -> Gateway.schema_cache (snd o) !! h = Some s) /\
  (Forall (fun d => routed_schema_type (schema_type d) = false) ds -> fst o = []).
Proof.
  induction ds as [|d ds IH]; intros c; cbv zeta.
  - cbn [fst snd Gateway.convert_descriptors Gateway.convert_to_routes].
    split; [intros x []|]. split; [reflexivity|]. split; [intros h s Hs; exact Hs|].
    intros _; reflexivity.
  - cbn [Gateway.convert_descriptors].
    pose proof (fetch_schema_keeps rf c d) as [Hm Hg].
    destruct (Gateway.fetch_schema rf c d) as [res c1] eqn:Hf. cbn [snd] in Hm, Hg.
    specialize (IH c1). cbv zeta in IH.
    destruct (Gateway.convert_descriptors rf manifest c1 ds) as [rs' c2]. cbn [fst snd] in IH |- *.
    destruct IH as (IH1 & IH2 & IH3 & IH4).
    split; [|split; [congruence|split; [auto|]]].
    + intros r Hr. apply in_app_or in Hr. destruct Hr as [Hr|Hr]; [|auto].
      destruct res as [schema|e]; [|destruct Hr]. exact (routes_of_schema_origin _ _ _ _ Hr).
    + intros Hall. inversion Hall as [|? ? Hd Hds]; subst. rewrite (IH4 Hds), app_nil_r.
      destruct res as [schema|e]; [|reflexivity].
      unfold Gateway.routes_of_schema. destruct (schema_type d); try reflexivity; discriminate.
Qed.

(** [Client::convert_to_routes]: every route it returns comes from one of
    the given manifests, whose service name, version and health endpoint
    it carries, with its target URL on that service's base URL and no
    middleware; it leaves the manifest cache as it is and keeps every
    cached schema; and manifests whose schemas are all of a type other than
    OpenAPI, AsyncAPI or GraphQL give no route. *)
Theorem convert_to_routes_spec (rf : string -> Result json) (ms : list SchemaManifest) :
  forall c,
  let o := Gateway.convert_to_routes rf c ms in
  (forall r, In r (fst o) -> exists m, In m ms /\ route_of_manifest m r) /\
  Gateway.manifest_cache (snd o) = Gateway.manifest_cache c /\
  (forall h s, Gateway.schema_cache c !! h = Some s -> Gateway.schema_cache (snd o) !! h = Some s) /\
  (Forall (fun m => Forall (fun d => routed_schema_type (schema_type d) = false) (schemas m)) ms ->
   fst o = []).
Proof.
  induction ms as [|m ms IH]; intros c; cbv zeta.
  - cbn [fst snd Gateway.convert_descriptors Gateway.convert_to_routes].
    split; [intros x []|]. split; [reflexivity|]. split; [intros h s Hs; exact Hs|].
    intros _; reflexivity.
  - cbn [Gateway.convert_to_routes].
    pose proof (convert_descriptors_facts rf m (schemas m) c) as H. cbv zeta in H.
    destruct (Gateway.convert_descriptors rf m c (schemas m)) as [rs c1].
    cbn [fst snd] in H. destruct H as (H1 & H2 & H3 & H4).
    specialize (IH c1). cbv zeta in IH.
    destruct (Gateway.convert_to_routes rf c1 ms) as [rs' c2]. cbn [fst snd] in IH |- *.
    destruct IH as (IH1 & IH2 & IH3 & IH4).
    split; [|split; [congruence|split; [auto|]]].
    + intros r Hr. apply in_app_or in Hr. destruct Hr as [Hr|Hr].
      * exists m. split; [left; reflexivity|auto].
      * destruct (IH1 r Hr) as [m' [Hin Hm']]. exists m'. split; [right; exact Hin|exact Hm'].
    + intros Hall. inversion Hall as [|? ? Hd Hds]; subst.
      rewrite (H4 Hd), (IH4 Hds). reflexivity.
Qed.

(** [convert_asyncapi_to_routes] gives one WebSocket route per channel of
    the schema, in the order of the channels, whatever each channel holds;
    a schema without a [channels] object gives no route. *)
Theorem convert_asyncapi_to_routes_spec (manifest : SchemaManifest) (schema : json) :
  (json_get "channels" schema ≫= as_object = None ->
   Gateway.convert_asyncapi_to_routes manifest schema = []) /\
  (forall chans, json_get "channels" schema ≫= as_object = Some chans ->
   List.map Gateway.path (Gateway.convert_asyncapi_to_routes manifest schema) = List.map fst chans /\
   Forall (fun r => Gateway.methods r = ["WEBSOCKET"] /\ route_of_manifest manifest r)
          (Gateway.convert_asyncapi_to_routes manifest schema)).
Proof.
  unfold Gateway.convert_asyncapi_to_routes. split.
  - intros ->. reflexivity.
  - intros chans ->. split.
    + rewrite List.map_map. apply List.map_id.
    + apply List.Forall_forall. intros r Hr. apply in_map_iff in Hr.
      destruct Hr as [p [<- _]]. repeat split.
Qed.

(** The events of [ds] delivered to watcher [w], in order. *)
Definition events_for (w : Memory.Sender) (ds : list Memory.Delivery) : list Memory.ManifestEvent :=
  List.map snd (List.filter (fun dl => Nat.eqb (fst dl) w) ds).

Lemma events_for_deliveries (w : Memory.Sender) (l : list Memory.Sender) (ev : Memory.ManifestEvent) :
  events_for w (List.map (fun s => (s, ev)) l) = repeat ev (List.count_occ Nat.eq_dec l w).
Proof.
  induction l as [|s l IH]; [reflexivity|].
  unfold events_for in *. cbn [List.map List.filter fst List.count_occ].
  destruct (Nat.eq_dec s w) as [->|Hne].
  - rewrite Nat.eqb_refl. cbn. f_equal. exact IH.
  - apply Nat.eqb_neq in Hne. rewrite Hne. exact IH.
Qed.

Lemma handle_event_idem (cache : gmap string SchemaManifest) (ev : Memory.ManifestEvent) :
  Gateway.handle_event (Gateway.handle_event cache ev) ev = Gateway.handle_event cache ev.
Proof.
  unfold Gateway.handle_event. destruct (Memory.event_type ev).
  - apply insert_insert_eq.
  - apply insert_insert_eq.
  - apply delete_delete_eq.
Qed.

Lemma handle_event_repeat (cache : gmap string SchemaManifest) (ev : Memory.ManifestEvent) (k : nat) :
  fold_left Gateway.handle_event (repeat ev (S k)) cache = Gateway.handle_event cache ev.
Proof.
  induction k as [|k IH]; [reflexivity|].
  change (repeat ev (S (S k))) with (ev :: repeat ev (S k)). cbn [fold_left].
  change (fold_left Gateway.handle_event (repeat ev (S k)) (Gateway.handle_event cache ev))
    with (fold_left Gateway.handle_event (ev :: repeat ev k) (Gateway.handle_event cache ev)).
  cbn [fold_left]. rewrite handle_event_idem.
  change (fold_left Gateway.handle_event (repeat ev k) (Gateway.handle_event cache ev))
    with (fold_left Gateway.handle_event (repeat ev (S k)) cache).
  exact IH.
Qed.

Lemma events_for_global (w : Memory.Sender) (ws : gmap string (list Memory.Sender)) (svc : string)
  (ev : Memory.ManifestEvent) (Hw : In w (default [] (ws !! ""))) :
  exists k, events_for w (deliveries_to ws svc ev) = repeat ev (S k).
Proof.
  unfold deliveries_to. rewrite events_for_deliveries, List.count_occ_app.
  apply (List.count_occ_In (A:=Memory.Sender) Nat.eq_dec) in Hw.
  destruct (List.count_occ (A:=Memory.Sender) Nat.eq_dec (default [] (ws !! "")) w) as [|n]; [lia|].
  exists (List.count_occ (A:=Memory.Sender) Nat.eq_dec (default [] (ws !! svc)) w + n).
  f_equal. lia.
Qed.

(** The gateway's manifest cache follows the registry: when a global
    watcher applies the handler of [Client::watch_services] to the events
    it is sent by a successful [register_manifest], [update_manifest] or
    [delete_manifest], a cache equal to the registry's manifests before the
    call equals them after it.  This holds for a registry whose manifests
    are stored under their own instance ids, as [register_manifest] and
    [update_manifest] store them. *)
Theorem cache_follows_registry (sha256_hex : string -> string) (st : Memory.RegistryState)
  (m : SchemaManifest) (id : string) (w : Memory.Sender)
  (Hw : In w (default [] (Memory.watchers st !! "")))
  (Hkeyed : forall k m', Memory.manifests st !! k = Some m' -> instance_id m' = k) :
  (let o := Memory.register_manifest sha256_hex st m in fst (fst o) = Ok () ->
   fold_left Gateway.handle_event (events_for w (snd o)) (Memory.manifests st) =
   Memory.manifests (snd (fst o))) /\
  (let o := Memory.update_manifest sha256_hex st m in fst (fst o) = Ok () ->
   fold_left Gateway.handle_event (events_for w (snd o)) (Memory.manifests st) =
   Memory.manifests (snd (fst o))) /\
  (let o := Memory.delete_manifest st id in fst (fst o) = Ok () ->
   fold_left Gateway.handle_event (events_for w (snd o)) (Memory.manifests st) =
   Memory.manifests (snd (fst o))).
Proof.
  cbv zeta. split; [|split].
  - unfold Memory.register_manifest. destruct (Memory.closed st); [discriminate|].
    destruct (Manifest.validate sha256_hex m); [|discriminate]. intros _. cbn [fst snd].
    rewrite notify_watchers_deliveries.
    destruct (events_for_global w (Memory.watchers st) (service_name m)
                {| Memory.event_type := Memory.Added; Memory.ev_manifest := m |} Hw) as [k Hk].
    cbn [Memory.set_manifests Memory.watchers Memory.manifests]. rewrite Hk, handle_event_repeat.
    reflexivity.
  - unfold Memory.update_manifest. destruct (Memory.closed st); [discriminate|].
    destruct (Manifest.validate sha256_hex m); [|discriminate].
    destruct (negb _); [discriminate|]. intros _. cbn [fst snd].
    rewrite notify_watchers_deliveries.
    destruct (events_for_global w (Memory.watchers st) (service_name m)
                {| Memory.event_type := Memory.Updated; Memory.ev_manifest := m |} Hw) as [k Hk].
    cbn [Memory.set_manifests Memory.watchers Memory.manifests]. rewrite Hk, handle_event_repeat.
    reflexivity.
  - unfold Memory.delete_manifest. destruct (Memory.closed st); [discriminate|].
    destruct (Memory.manifests st !! id) as [m'|] eqn:Hid; [|discriminate]. intros _. cbn [fst snd].
    rewrite notify_watchers_deliveries.
    destruct (events_for_global w (Memory.watchers st) (service_name m')
                {| Memory.event_type := Memory.Removed; Memory.ev_manifest := m' |} Hw) as [k Hk].
    cbn [Memory.set_manifests Memory.watchers Memory.manifests]. rewrite Hk, handle_event_repeat.
    unfold Gateway.handle_event. cbn [Memory.event_type Memory.ev_manifest].
    rewrite (Hkeyed id m' Hid). reflexivity.
Qed.

Definition globally_watched_registry : Memory.RegistryState :=
  snd (fst (Memory.watch_manifests Memory.new_registry "")).

Lemma cache_follows_registry_witness :
  In 0 (default [] (Memory.watchers globally_watched_registry !! "")) /\
  fold_left Gateway.handle_event
    (events_for 0 (snd (Memory.register_manifest (fun s => s) globally_watched_registry valid_manifest)))
    (Memory.manifests globally_watched_registry) =
  Memory.manifests
    (snd (fst (Memory.register_manifest (fun s => s) globally_watched_registry valid_manifest))).
Proof.
  assert (Hw : In 0 (default [] (Memory.watchers globally_watched_registry !! "")))
    by (vm_compute; left; reflexivity).
  assert (Hk : forall k m', Memory.manifests globally_watched_registry !! k = Some m' ->
                            instance_id m' = k)
    by (intros k m' H; vm_compute in H; discriminate).
  split; [exact Hw|].
  apply (proj1 (cache_follows_registry (fun s => s) globally_watched_registry valid_manifest "" 0
                  Hw Hk)).
  reflexivity.
Defined.

(** ** [merger/openapi.rs]: routing and renaming *)

Lemma string_app_inj_l (s a b : string) : s ++ a = s ++ b -> a = b.
Proof.
  induction s as [|c s IH]; [exact id|].
  rewrite !append_String. intros H. injection H as H. exact (IH H).
Qed.

Lemma collect_map_fold_notin {A} (l : list (string * A)) (m0 : gmap string A) (k : string) :
  k ∉ l.*1 -> fold_left (fun m '(k, v) => <[k := v]> m) l m0 !! k = m0 !! k.
Proof.
  revert m0. induction l as [|[k' v'] l IH]; intros m0 Hk; [reflexivity|].
  cbn [fold_left]. rewrite fmap_cons, elem_of_cons in Hk. cbn [fst] in Hk.
  rewrite IH by tauto. apply lookup_insert_ne. intros ->. tauto.
Qed.

Lemma collect_map_fold_in {A} (l : list (string * A)) (m0 : gmap string A) (k : string) (v : A) :
  NoDup l.*1 -> (k, v) ∈ l -> fold_left (fun m '(k, v) => <[k := v]> m) l m0 !! k = Some v.
Proof.
  revert m0. induction l as [|[k' v'] l IH]; intros m0 Hnd Hin; [apply elem_of_nil in Hin; done|].
  cbn [fold_left]. rewrite fmap_cons in Hnd. apply NoDup_cons in Hnd as [Hk' Hnd].
  apply elem_of_cons in Hin as [Heq|Hin].
  - injection Heq as -> ->. rewrite collect_map_fold_notin by exact Hk'. apply lookup_insert_eq.
  - apply IH; assumption.
Qed.

(** Collecting the entries of a map under keys renamed by an injective
    function: the renamed key holds the old value and no other key is
    present. *)
Lemma collect_map_rename {A} (f : string -> string) (Hf : forall a b, f a = f b -> a = b)
  (m : gmap string A) :
  (forall k, Merger.collect_map (List.map (fun '(n, v) => (f n, v)) (map_to_list m)) !! f k = m !! k) /\
  (forall q, (forall n, q <> f n) ->
     Merger.collect_map (List.map (fun '(n, v) => (f n, v)) (map_to_list m)) !! q = None).
Proof.
  set (l := List.map (fun '(n, v) => (f n, v)) (map_to_list m)).
  assert (Hfst : l.*1 = f <$> (map_to_list m).*1).
  { unfold l. induction (map_to_list m) as [|[n v] r IH]; [reflexivity|].
    cbn [List.map]. rewrite !fmap_cons, IH. reflexivity. }
  assert (Hnd : NoDup l.*1).
  { rewrite Hfst. apply NoDup_fmap_2; [intros a b; apply Hf|apply NoDup_fst_map_to_list]. }
  assert (Hin : forall n v, (n, v) ∈ map_to_list m -> (f n, v) ∈ l).
  { intros n v H. unfold l. apply list_elem_of_In. apply in_map_iff.
    exists (n, v). split; [reflexivity|]. apply list_elem_of_In. exact H. }
  unfold Merger.collect_map. split.
  - intros k. destruct (m !! k) as [v|] eqn:E.
    + apply collect_map_fold_in; [exact Hnd|]. apply Hin. apply elem_of_map_to_list. exact E.
    + rewrite collect_map_fold_notin; [reflexivity|].
      rewrite Hfst. intros Hk. apply list_elem_of_fmap in Hk as [n [Hn Hn']].
      apply Hf in Hn as ->. apply list_elem_of_fmap in Hn' as [[n' v'] [Heq Hnv]].
      cbn in Heq. subst n'. apply elem_of_map_to_list in Hnv. congruence.
  - intros q Hq. rewrite collect_map_fold_notin; [reflexivity|].
    rewrite Hfst. intros Hk. apply list_elem_of_fmap in Hk as [n [Hn _]]. exact (Hq n Hn).
Qed.

Lemma apply_mount_strategy_prefix (p : string) (m : SchemaManifest) :
  exists pre, forall p', Merger.apply_mount_strategy p' m = pre ++ p'.
Proof.
  unfold Merger.apply_mount_strategy. destruct (strategy (routing m)).
  - exists "". reflexivity.
  - exists ("/" ++ instance_id m). intros p'. rewrite string_append_assoc. reflexivity.
  - exists ("/" ++ service_name m). intros p'. rewrite string_append_assoc. reflexivity.
  - exists ("/" ++ service_name m ++ "/" ++ service_version m). intros p'.
    rewrite !string_append_assoc. reflexivity.
  - destruct (base_path (routing m)) as [b|]; [exists b | exists ""]; reflexivity.
  - exists "". reflexivity.
Qed.

(** [apply_routing] moves every path to its mounted path and loses or adds
    nothing: the item at the mounted path of [p] is the item of [p], a
    path that is no mounted path holds nothing, and under the [Root] and
    [Subdomain] strategies the paths are unchanged. *)
Theorem apply_routing_spec (paths : gmap string Merger.PathItem) (m : SchemaManifest) :
  (forall p, Merger.apply_routing paths m !! Merger.apply_mount_strategy p m = paths !! p) /\
  (forall q, (forall p, q <> Merger.apply_mount_strategy p m) ->
     Merger.apply_routing paths m !! q = None) /\
  (strategy (routing m) = Root \/ strategy (routing m) = Subdomain ->
   Merger.apply_routing paths m = paths).
Proof.
  destruct (apply_mount_strategy_prefix "" m) as [pre Hpre].
  assert (Hinj : forall a b, Merger.apply_mount_strategy a m = Merger.apply_mount_strategy b m -> a = b).
  { intros a b. rewrite !Hpre. apply string_app_inj_l. }
  destruct (collect_map_rename (fun p => Merger.apply_mount_strategy p m) Hinj paths) as [H1 H2].
  unfold Merger.apply_routing. split; [exact H1|]. split; [exact H2|].
  intros Hs. apply map_eq. intros p.
  assert (Hid : Merger.apply_mount_strategy p m = p).
  { unfold Merger.apply_mount_strategy. destruct Hs as [-> | ->]; reflexivity. }
  rewrite <- Hid at 1. apply H1.
Qed.

(** [prefix_component_names] with an empty prefix returns the components
    as they are.  With a non-empty prefix, the schemas, responses,
    parameters and request bodies are each found under
    [prefix ++ "_" ++ name] and under no other name, the headers are
    dropped and the security schemes are kept as they are. *)
Theorem prefix_component_names_spec (c : Merger.Components) (prefix : string) :
  (prefix = "" -> Merger.prefix_component_names c prefix = c) /\
  (prefix <> "" ->
   let c' := Merger.prefix_component_names c prefix in
   (forall n, Merger.comp_schemas c' !! (prefix ++ "_" ++ n) = Merger.comp_schemas c !! n /\
              Merger.responses c' !! (prefix ++ "_" ++ n) = Merger.responses c !! n /\
              Merger.comp_parameters c' !! (prefix ++ "_" ++ n) = Merger.comp_parameters c !! n /\
              Merger.request_bodies c' !! (prefix ++ "_" ++ n) = Merger.request_bodies c !! n) /\
   (forall q, (forall n, q <> prefix ++ "_" ++ n) ->
      Merger.comp_schemas c' !! q = None /\ Merger.responses c' !! q = None /\
      Merger.comp_parameters c' !! q = None /\ Merger.request_bodies c' !! q = None) /\
   Merger.headers c' = ∅ /\
   Merger.security_schemes c' = Merger.security_schemes c).
Proof.
  unfold Merger.prefix_component_names, Manifest.is_empty. split.
  - intros ->. reflexivity.
  - intros Hne. apply String.eqb_neq in Hne. rewrite Hne. cbv zeta.
    assert (Hinj : forall a b, prefix ++ "_" ++ a = prefix ++ "_" ++ b -> a = b).
    { intros a b H. apply string_app_inj_l in H. rewrite !append_String in H.
      injection H as H. exact H. }
    unfold Merger.prefix_names. cbn [Merger.comp_schemas Merger.responses Merger.comp_parameters
      Merger.request_bodies Merger.headers Merger.security_schemes].
    destruct (collect_map_rename _ Hinj (Merger.comp_schemas c)) as [S1 S2].
    destruct (collect_map_rename _ Hinj (Merger.responses c)) as [R1 R2].
    destruct (collect_map_rename _ Hinj (Merger.comp_parameters c)) as [P1 P2].
    destruct (collect_map_rename _ Hinj (Merger.request_bodies c)) as [B1 B2].
    split; [intros n; auto|]. split; [intros q Hq; auto|]. split; reflexivity.
Qed.

(** ** [merger/mod.rs] and [merger/openapi.rs]: sorting, parsing, inclusion *)

Definition tag_le (a b : Merger.Tag) : Prop :=
  String.compare (Merger.tag_name a) (Merger.tag_name b) <> Gt.

Lemma insert_tag_perm (t : Merger.Tag) (l : list Merger.Tag) :
  Permutation (t :: l) (Merger.insert_tag t l).
Proof.
  induction l as [|t' l IH]; [reflexivity|]. cbn [Merger.insert_tag].
  destruct (String.compare _ _); try reflexivity;
    (etransitivity; [apply perm_swap|]; apply perm_skip; exact IH).
Qed.

Lemma insert_tag_head (t t' : Merger.Tag) (l : list Merger.Tag) :
  String.compare (Merger.tag_name t) (Merger.tag_name t') <> Lt ->
  HdRel tag_le t' l -> HdRel tag_le t' (Merger.insert_tag t l).
Proof.
  intros Hnlt Hhd. unfold tag_le.
  assert (Ht : String.compare (Merger.tag_name t') (Merger.tag_name t) <> Gt).
  { rewrite String.compare_antisym. destruct (String.compare _ _); cbn; congruence. }
  destruct l as [|t'' l]; cbn [Merger.insert_tag].
  - constructor. exact Ht.
  - destruct (String.compare (Merger.tag_name t) (Merger.tag_name t'')); try (constructor; exact Ht);
      inversion Hhd; constructor; assumption.
Qed.

Lemma insert_tag_sorted (t : Merger.Tag) (l : list Merger.Tag) :
  Sorted tag_le l -> Sorted tag_le (Merger.insert_tag t l).
Proof.
  induction l as [|t' l IH]; intros Hs; [repeat constructor|].
  apply Sorted_inv in Hs as [Hs Hhd]. cbn [Merger.insert_tag].
  destruct (String.compare (Merger.tag_name t) (Merger.tag_name t')) eqn:E.
  - constructor; [exact (IH Hs)|]. apply insert_tag_head; [congruence|exact Hhd].
  - constructor; [constructor; assumption|]. constructor. unfold tag_le. rewrite E. discriminate.
  - constructor; [exact (IH Hs)|]. apply insert_tag_head; [congruence|exact Hhd].
Qed.

Lemma sort_tags_fold (l acc : list Merger.Tag) :
  Sorted tag_le acc ->
  Sorted tag_le (fold_left (fun a t => Merger.insert_tag t a) l acc) /\
  Permutation (app l acc) (fold_left (fun a t => Merger.insert_tag t a) l acc).
Proof.
  revert acc. induction l as [|t l IH]; intros acc Hs; [split; [exact Hs|reflexivity]|].
  cbn [fold_left]. destruct (IH (Merger.insert_tag t acc) (insert_tag_sorted t acc Hs)) as [H1 H2].
  split; [exact H1|]. etransitivity; [|exact H2].
  cbn [app]. etransitivity; [apply Permutation_middle|].
  apply Permutation_app_head. apply insert_tag_perm.
Qed.

(** The tags of the merged specification are those collected during the
    merge, in another order at most; when [sort_output] is set they are
    sorted by name (the stable [sort_by] on names), and otherwise they
    keep the order in which they were collected. *)
Theorem finish_tags (cfg : Merger.MergerConfig) (st : Merger.MergeState) :
  let ts := Merger.tags_list (Merger.spec (Merger.finish cfg st)) in
  Permutation (Merger.m_tags st) ts /\
  (Merger.sort_output cfg = true -> Sorted tag_le ts) /\
  (Merger.sort_output cfg = false -> ts = Merger.m_tags st).
Proof.
  cbv zeta. cbn [Merger.finish Merger.spec Merger.tags_list].
  destruct (sort_tags_fold (Merger.m_tags st) [] (Sorted_nil _)) as [Hs Hp].
  rewrite app_nil_r in Hp. unfold Merger.sort_tags.
  destruct (Merger.sort_output cfg).
  - split; [exact Hp|]. split; [intros _; exact Hs|discriminate].
  - split; [reflexivity|]. split; [discriminate|reflexivity].
Qed.

(** [parse_openapi_schema] succeeds exactly on an object with a string
    [openapi] field and an [info] object holding a string [title] and a
    string [version]; the servers, paths, components and tags never make
    it fail.  A value that is not an object is rejected first, with
    "schema must be an object". *)
Theorem parse_openapi_schema_ok (raw : json) :
  ((exists s, Merger.parse_openapi_schema raw = Ok s) <->
   exists obj info, raw = JObj obj /\ is_Some (Merger.get_str "openapi" obj) /\
     Merger.and_then (assoc_get "info" obj) as_object = Some info /\
     is_Some (Merger.get_str "title" info) /\ is_Some (Merger.get_str "version" info)) /\
  (as_object raw = None ->
   Merger.parse_openapi_schema raw = Err (InvalidSchema "schema must be an object")).
Proof.
  split.
  - unfold Merger.parse_openapi_schema, Merger.parse_info_public.
    destruct raw as [|b|n|s0|xs|obj]; cbn [as_object Merger.ok_or mbind result_mbind];
      try (split; [intros [s Hs]; discriminate | intros (o & i & Ho & _); discriminate]).
    destruct (Merger.get_str "openapi" obj) as [oa|] eqn:Eoa; cbn [Merger.ok_or mbind result_mbind];
      [|split; [intros [s Hs]; discriminate | intros (o & i & Ho & Hoa & _); injection Ho as <-;
                rewrite Eoa in Hoa; destruct Hoa; discriminate]].
    destruct (Merger.and_then (assoc_get "info" obj) as_object) as [info|] eqn:Ei;
      cbn [Merger.ok_or mbind result_mbind];
      [|split; [intros [s Hs]; discriminate | intros (o & i & Ho & _ & Hi & _); injection Ho as <-;
                congruence]].
    destruct (Merger.get_str "title" info) as [t|] eqn:Et; cbn [Merger.ok_or mbind result_mbind];
      [|split; [intros [s Hs]; discriminate | intros (o & i & Ho & _ & Hi & Ht & _); injection Ho as <-;
                rewrite Ei in Hi; injection Hi as <-; rewrite Et in Ht; destruct Ht; discriminate]].
    destruct (Merger.get_str "version" info) as [v|] eqn:Ev; cbn [Merger.ok_or mbind result_mbind];
      [|split; [intros [s Hs]; discriminate | intros (o & i & Ho & _ & Hi & _ & Hv); injection Ho as <-;
                rewrite Ei in Hi; injection Hi as <-; rewrite Ev in Hv; destruct Hv; discriminate]].
    split; [intros _; exists obj, info; repeat split; first [assumption | eexists; eassumption]
           | intros _; eexists; reflexivity].
  - intros H. unfold Merger.parse_openapi_schema. rewrite H. reflexivity.
Qed.

(** The list of excluded services, which only [push_excluded] changes. *)
Definition excl_of (st : Merger.MergeState) : list string := Merger.m_excluded st.

Lemma apply_to_op_excl (a b c : string) (op : option Merger.Operation) (st : Merger.MergeState) :
  excl_of (snd (Merger.apply_to_op a b c op st)) = excl_of st.
Proof.
  unfold Merger.apply_to_op.
  destruct op as [o|]; [|reflexivity].
  destruct (Merger.operation_id o); [|reflexivity].
  destruct (Merger.seen_operation_ids st !! _); reflexivity.
Qed.

Lemma apply_operation_prefixes_excl (it : Merger.PathItem) (a b c : string)
  (st : Merger.MergeState) :
  excl_of (snd (Merger.apply_operation_prefixes it a b c st)) = excl_of st.
Proof.
  unfold Merger.apply_operation_prefixes. cbv zeta.
  repeat match goal with
         | |- context [Merger.apply_to_op a b c ?o ?s] =>
             let E := fresh "E" in
             pose proof (apply_to_op_excl a b c o s) as E;
             destruct (Merger.apply_to_op a b c o s); cbn [snd] in E
         end.
  cbn [snd]. congruence.
Qed.

Lemma insert_prefixed_path_excl ctx st p it :
  excl_of (Merger.insert_prefixed_path ctx st p it) = excl_of st.
Proof.
  unfold Merger.insert_prefixed_path.
  pose proof (apply_operation_prefixes_excl it (Merger.ctx_operation_id_prefix ctx)
                (Merger.ctx_tag_prefix ctx) (Merger.ctx_service_name ctx) st) as E.
  destruct (Merger.apply_operation_prefixes _ _ _ _ _). exact E.
Qed.

Lemma merge_path_excl ctx st entry st' :
  Merger.merge_path ctx st entry = Ok st' -> excl_of st' = excl_of st.
Proof.
  unfold Merger.merge_path. destruct entry as [p it].
  destruct (Merger.seen_paths st !! p);
    [destruct (Merger.ctx_strategy ctx)|]; intros H; try discriminate;
    injection H as <-; rewrite ?insert_prefixed_path_excl; reflexivity.
Qed.

Lemma merge_component_schema_excl ctx st entry :
  excl_of (Merger.merge_component_schema ctx st entry) = excl_of st.
Proof.
  unfold Merger.merge_component_schema. destruct entry as [n o].
  destruct (Merger.seen_components st !! n); [destruct (Merger.is_skip _)|]; reflexivity.
Qed.

Lemma merge_security_scheme_excl ctx st entry st' :
  Merger.merge_security_scheme ctx st entry = Ok st' -> excl_of st' = excl_of st.
Proof.
  unfold Merger.merge_security_scheme. destruct entry as [n o].
  destruct (Merger.seen_security_schemes st !! n);
    [destruct (Merger.ctx_strategy ctx)|]; intros H; try discriminate;
    injection H as <-; reflexivity.
Qed.

Lemma merge_components_excl ctx st comps st' :
  Merger.merge_components ctx st comps = Ok st' -> excl_of st' = excl_of st.
Proof.
  unfold Merger.merge_components. cbv zeta. intros H.
  apply (fold_result_inv (fun s s' => excl_of s' = excl_of s)) in H.
  - rewrite H. change (excl_of (Merger.set_components ?s _ _ _)) with (excl_of s).
    apply (fold_left_inv excl_of). apply merge_component_schema_excl.
  - reflexivity.
  - intros s1 s2 s3 H1 H2. congruence.
  - apply merge_security_scheme_excl.
Qed.

Lemma merge_tag_excl cfg ctx st t :
  excl_of (Merger.merge_tag cfg ctx st t) = excl_of st.
Proof.
  unfold Merger.merge_tag.
  repeat match goal with
         | |- context [match ?x with _ => _ end] => destruct x
         end; reflexivity.
Qed.

Lemma merge_parsed_excl cfg m st p st' :
  Merger.merge_parsed cfg m st p = Ok st' -> excl_of st' = excl_of st.
Proof.
  unfold Merger.merge_parsed. cbv zeta. cbn [mbind result_mbind].
  destruct (Merger.fold_result _ st _) as [s1|e] eqn:E1; [|discriminate].
  apply (fold_result_inv (fun s s' => excl_of s' = excl_of s)) in E1;
    [| reflexivity | intros ??? ??; congruence | apply merge_path_excl].
  destruct (Merger.components p) as [comps|]; cbn [mbind result_mbind].
  - match goal with |- context [Merger.merge_components ?c s1 comps] => destruct (Merger.merge_components c s1 comps) as [s2|e] eqn:E2 end; [|discriminate].
    apply merge_components_excl in E2. cbn [mbind result_mbind].
    intros H. injection H as <-.
    rewrite (fold_left_inv excl_of); [congruence|]. apply merge_tag_excl.
  - intros H. injection H as <-.
    rewrite (fold_left_inv excl_of); [congruence|]. apply merge_tag_excl.
Qed.

(** [Merger::merge] puts every service into exactly one of its two lists,
    in the order of the input: [included_services] lists the services that
    pass [should_include_in_merge] (whether or not their schema parses) and
    [excluded_services] the others. *)
Theorem merge_partitions_services (cfg : Merger.MergerConfig) (ss : list Merger.ServiceSchema)
  (r : Merger.MergeResult) (H : Merger.merge cfg ss = Ok r) :
  Merger.included_services r =
    List.map (fun s => service_name (Merger.ss_manifest s))
             (List.filter Merger.should_include_in_merge ss) /\
  Merger.excluded_services r =
    List.map (fun s => service_name (Merger.ss_manifest s))
             (List.filter (fun s => negb (Merger.should_include_in_merge s)) ss).
Proof.
  assert (Hstep : forall st s st', Merger.merge_service cfg st s = Ok st' ->
     Merger.m_included st' = app (Merger.m_included st)
        (if Merger.should_include_in_merge s then [service_name (Merger.ss_manifest s)] else []) /\
     Merger.m_excluded st' = app (Merger.m_excluded st)
        (if Merger.should_include_in_merge s then [] else [service_name (Merger.ss_manifest s)])).
  { intros st s st'. unfold Merger.merge_service. cbv zeta.
    destruct (Merger.should_include_in_merge s); cbn [negb].
    - set (st1 := Merger.push_included st _).
      assert (Hp : forall p, Merger.merge_parsed cfg (Merger.ss_manifest s) st1 p = Ok st' ->
                Merger.m_included st' = app (Merger.m_included st) [service_name (Merger.ss_manifest s)] /\
                Merger.m_excluded st' = app (Merger.m_excluded st) []).
      { intros p Hm. pose proof (merge_parsed_lists _ _ _ _ _ Hm) as E1.
        pose proof (merge_parsed_excl _ _ _ _ _ Hm) as E2.
        unfold lists_of in E1. unfold excl_of in E2. injection E1 as E1 _.
        rewrite E1, E2, app_nil_r. split; reflexivity. }
      destruct (Merger.parsed s) as [p|]; [apply Hp|].
      destruct (Merger.parse_openapi_schema _) as [p|e]; [apply Hp|].
      intros Hw. injection Hw as <-. rewrite app_nil_r. split; reflexivity.
    - intros Hx. injection Hx as <-. rewrite app_nil_r. split; reflexivity. }
  assert (Hfold : forall l st st', Merger.fold_result (Merger.merge_service cfg) st l = Ok st' ->
     Merger.m_included st' = app (Merger.m_included st)
       (List.map (fun s => service_name (Merger.ss_manifest s))
                 (List.filter Merger.should_include_in_merge l)) /\
     Merger.m_excluded st' = app (Merger.m_excluded st)
       (List.map (fun s => service_name (Merger.ss_manifest s))
                 (List.filter (fun s => negb (Merger.should_include_in_merge s)) l))).
  { induction l as [|s l IH]; intros st st' Hf; cbn in Hf.
    - injection Hf as <-. rewrite !app_nil_r. split; reflexivity.
    - destruct (Merger.merge_service cfg st s) as [st1|e] eqn:E; [|discriminate].
      destruct (Hstep _ _ _ E) as [Hi He]. destruct (IH _ _ Hf) as [Hi' He'].
      rewrite Hi', He', Hi, He, <- !app_assoc. cbn [List.filter].
      destruct (Merger.should_include_in_merge s); cbn; split; reflexivity. }
  unfold Merger.merge in H. cbn [mbind result_mbind] in H.
  destruct (Merger.fold_result _ _ _) as [st|e] eqn:E; [|discriminate].
  injection H as <-. destruct (Hfold _ _ _ E) as [Hi He].
  cbn [Merger.finish Merger.included_services Merger.excluded_services]. rewrite Hi, He.
  split; reflexivity.
Qed.

Lemma merge_partitions_services_witness :
  Merger.excluded_services
    (match Merger.merge default_merger_config [unparsable_service] with
     | Ok r => r | Err _ => Merger.finish default_merger_config Merger.init_state end) = [] /\
  Merger.included_services
    (match Merger.merge default_merger_config [unparsable_service] with
     | Ok r => r | Err _ => Merger.finish default_merger_config Merger.init_state end) =
    ["broken-service"].
Proof.
  destruct (Merger.merge default_merger_config [unparsable_service]) as [r|e] eqn:E;
    [|vm_compute in E; discriminate].
  destruct (merge_partitions_services default_merger_config [unparsable_service] r E) as [Hi He].
  rewrite Hi, He. split; vm_compute; reflexivity.
Defined.

Lemma apply_to_op_seen_paths (a b c : string) (op : option Merger.Operation) (st : Merger.MergeState) :
  Merger.seen_paths (snd (Merger.apply_to_op a b c op st)) = Merger.seen_paths st.
Proof.
  unfold Merger.apply_to_op.
  destruct op as [o|]; [|reflexivity].
  destruct (Merger.operation_id o); [|reflexivity].
  destruct (Merger.seen_operation_ids st !! _); reflexivity.
Qed.

Lemma insert_prefixed_path_seen_paths ctx st p it :
  Merger.seen_paths (Merger.insert_prefixed_path ctx st p it) =
  <[p := Merger.ctx_service_name ctx]> (Merger.seen_paths st).
Proof.
  unfold Merger.insert_prefixed_path, Merger.apply_operation_prefixes. cbv zeta.
  set (a := Merger.ctx_operation_id_prefix ctx). set (b := Merger.ctx_tag_prefix ctx).
  set (c := Merger.ctx_service_name ctx).
  repeat match goal with
         | |- context [Merger.apply_to_op a b c ?o ?s] =>
             let E := fresh "E" in
             pose proof (apply_to_op_seen_paths a b c o s) as E;
             destruct (Merger.apply_to_op a b c o s); cbn [snd] in E
         end.
  cbn [Merger.insert_path Merger.seen_paths]. congruence.
Qed.

Lemma merge_paths_error_other (ctx : Merger.ServiceCtx) (Hs : Merger.ctx_strategy ctx = ErrorStrategy)
  (l : list (string * Merger.PathItem)) :
  forall s s', Merger.fold_result (Merger.merge_path ctx) s l = Ok s' ->
  forall q, q ∉ l.*1 -> Merger.seen_paths s' !! q = Merger.seen_paths s !! q.
Proof.
  induction l as [|[q0 it0] l IH]; intros s s' Hf q Hq; cbn in Hf.
  - injection Hf as <-. reflexivity.
  - rewrite fmap_cons, elem_of_cons in Hq. cbn [fst] in Hq.
    unfold Merger.merge_path in Hf.
    destruct (Merger.seen_paths s !! q0) as [ex|] eqn:E0; [rewrite Hs in Hf; discriminate|].
    rewrite (IH _ _ Hf q) by tauto. rewrite insert_prefixed_path_seen_paths.
    apply lookup_insert_ne. intros ->. tauto.
Qed.

(** Under the [Error] conflict strategy, the path loop of [Merger::merge]
    over the (distinct) paths of a service succeeds exactly when none of
    them was already taken by an earlier service, and then records each of
    them as belonging to this service; a single clash makes the whole merge
    step fail. *)
Theorem merge_paths_error_strategy (ctx : Merger.ServiceCtx) (st : Merger.MergeState)
  (l : list (string * Merger.PathItem))
  (Hs : Merger.ctx_strategy ctx = ErrorStrategy) (Hnd : NoDup l.*1) :
  ((exists st', Merger.fold_result (Merger.merge_path ctx) st l = Ok st') <->
   Forall (fun e => Merger.seen_paths st !! e.1 = None) l) /\
  (forall st', Merger.fold_result (Merger.merge_path ctx) st l = Ok st' ->
   Forall (fun e => Merger.seen_paths st' !! e.1 = Some (Merger.ctx_service_name ctx)) l).
Proof.
  revert st. induction l as [|[p it] l IH]; intros st.
  - split; [split; [intros _; constructor | intros _; eexists; reflexivity]|intros; constructor].
  - rewrite fmap_cons in Hnd. apply NoDup_cons in Hnd as [Hp Hnd]. cbn [fst] in Hp.
    specialize (IH Hnd).
    cbn [Merger.fold_result].
    destruct (Merger.seen_paths st !! p) as [ex|] eqn:Ep.
    + assert (Hstep : exists e, Merger.merge_path ctx st (p, it) = Err e).
      { unfold Merger.merge_path. rewrite Ep, Hs. eexists. reflexivity. }
      destruct Hstep as [e He]. rewrite He. split.
      * split; [intros [st' H]; discriminate|]. intros Hf.
        inversion Hf as [|? ? Hh _]; subst. cbn in Hh. congruence.
      * intros st' H. discriminate.
    + set (st1 := Merger.insert_prefixed_path ctx st p it).
      assert (Hstep : Merger.merge_path ctx st (p, it) = Ok st1).
      { unfold Merger.merge_path. rewrite Ep. reflexivity. }
      rewrite Hstep.
      assert (Hst1 : forall e, e ∈ l -> Merger.seen_paths st1 !! e.1 = Merger.seen_paths st !! e.1).
      { intros e He. unfold st1. rewrite insert_prefixed_path_seen_paths.
        apply lookup_insert_ne. intros Heq. apply Hp. rewrite Heq. apply list_elem_of_fmap_2. exact He. }
      destruct (IH st1) as [IH1 IH2]. split.
      * rewrite IH1, Forall_cons. cbn [fst]. split.
        -- intros Hf. split; [exact Ep|].
           apply Forall_forall. intros e He. rewrite <- Hst1 by exact He.
           rewrite Forall_forall in Hf. exact (Hf e He).
        -- intros [_ Hf]. apply Forall_forall. intros e He. rewrite Hst1 by exact He.
           rewrite Forall_forall in Hf. exact (Hf e He).
      * intros st' H. constructor; [|exact (IH2 st' H)]. cbn [fst].
        rewrite (merge_paths_error_other ctx Hs l st1 st' H p Hp).
        unfold st1. rewrite insert_prefixed_path_seen_paths. apply lookup_insert_eq.
Qed.

Definition error_strategy_ctx : Merger.ServiceCtx :=
  {| Merger.ctx_service_name := "svc"; Merger.ctx_strategy := ErrorStrategy;
     Merger.ctx_component_prefix := "svc"; Merger.ctx_tag_prefix := "svc";
     Merger.ctx_operation_id_prefix := "svc" |}.

Lemma merge_paths_error_strategy_witness :
  exists st', Merger.fold_result (Merger.merge_path error_strategy_ctx) Merger.init_state
                [("/a", path_item_with_get None); ("/b", path_item_with_get None)] = Ok st'.
Proof.
  apply (proj2 (proj1 (merge_paths_error_strategy error_strategy_ctx Merger.init_state
                         [("/a", path_item_with_get None); ("/b", path_item_with_get None)]
                         eq_refl ltac:(vm_compute; repeat constructor; set_solver)))).
  repeat constructor.
Defined.

(** ** [merger/mod.rs]: the tag loop *)

(** The tag list and [seen_tags] agree: no two tags share a name, every
    entry of [seen_tags] is stored under its own name, and the names seen
    are those of the list. *)
Definition tags_consistent (ts : list Merger.Tag) (seen : gmap string Merger.Tag) : Prop :=
  NoDup (Merger.tag_name <$> ts) /\
  (forall n t, seen !! n = Some t -> Merger.tag_name t = n) /\
  (forall n, is_Some (seen !! n) <-> n ∈ Merger.tag_name <$> ts).

Lemma position_some {A} (p : A -> bool) (l : list A) (i : nat) :
  Merger.position p l = Some i -> exists x, l !! i = Some x /\ p x = true.
Proof.
  revert i. induction l as [|x l IH]; intros i H; cbn in H; [discriminate|].
  destruct (p x) eqn:Ep.
  - injection H as <-. exists x. split; [reflexivity|exact Ep].
  - destruct (Merger.position p l) as [j|] eqn:Ej; cbn in H; [|discriminate].
    injection H as <-. destruct (IH j eq_refl) as [y [Hy Hpy]]. exists y. split; assumption.
Qed.

Lemma merge_tag_consistent (cfg : Merger.MergerConfig) (ctx : Merger.ServiceCtx)
  (st : Merger.MergeState) (tag : Merger.Tag) :
  tags_consistent (Merger.m_tags st) (Merger.seen_tags st) ->
  tags_consistent (Merger.m_tags (Merger.merge_tag cfg ctx st tag))
                  (Merger.seen_tags (Merger.merge_tag cfg ctx st tag)) /\
  (forall n, n ∈ Merger.tag_name <$> Merger.m_tags st ->
             n ∈ Merger.tag_name <$> Merger.m_tags (Merger.merge_tag cfg ctx st tag)).
Proof.
  intros (Hnd & Hkey & Hdom). unfold tags_consistent, Merger.merge_tag. cbv zeta.
  generalize (if negb (Manifest.is_empty (Merger.ctx_tag_prefix ctx)) && Merger.include_service_tags cfg
              then Merger.set_tag_name tag (Merger.ctx_tag_prefix ctx ++ "_" ++ Merger.tag_name tag)
              else tag) as t. intros t.
  destruct (Merger.seen_tags st !! Merger.tag_name t) as [ex|] eqn:E.
  - assert (Hex : Merger.tag_name ex = Merger.tag_name t) by exact (Hkey _ _ E).
    destruct (Merger.tag_description t) as [dt|], (Merger.tag_description ex) as [de|];
      try (split; [split; [exact Hnd|split; assumption]|auto]).
    set (updated := Merger.set_tag_description ex (Some dt)).
    assert (Hu : Merger.tag_name updated = Merger.tag_name t) by exact Hex.
    set (ts := match Merger.position _ (Merger.m_tags st) with
               | Some pos => <[pos := updated]> (Merger.m_tags st) | None => Merger.m_tags st end).
    assert (Hnames : Merger.tag_name <$> ts = Merger.tag_name <$> Merger.m_tags st).
    { unfold ts. destruct (Merger.position _ (Merger.m_tags st)) as [pos|] eqn:Ep; [|reflexivity].
      apply position_some in Ep as [x [Hx Hpx]]. apply String.eqb_eq in Hpx.
      rewrite list_fmap_insert. apply list_insert_id.
      rewrite list_lookup_fmap, Hx. cbn. congruence. }
    cbn [Merger.set_tags Merger.m_tags Merger.seen_tags]. fold ts. rewrite Hnames.
    split; [split; [exact Hnd|split]|auto].
    + intros n t' H. destruct (decide (n = Merger.tag_name t)) as [->|Hne].
      * rewrite lookup_insert_eq in H. injection H as <-. exact Hu.
      * rewrite lookup_insert_ne in H by congruence. exact (Hkey _ _ H).
    + intros n. rewrite <- Hdom. destruct (decide (n = Merger.tag_name t)) as [->|Hne].
      * rewrite lookup_insert_eq, E. split; intros _; eexists; reflexivity.
      * rewrite lookup_insert_ne by congruence. reflexivity.
  - assert (Hnin : Merger.tag_name t ∉ Merger.tag_name <$> Merger.m_tags st).
    { rewrite <- Hdom, E. intros [x Hx]. discriminate. }
    cbn [Merger.set_tags Merger.m_tags Merger.seen_tags]. rewrite fmap_app. cbn [fmap list_fmap].
    split; [split; [|split]|].
    + apply NoDup_app. split; [exact Hnd|]. split; [|apply NoDup_singleton].
      intros n Hn Hn'. apply list_elem_of_singleton in Hn'. subst n. contradiction.
    + intros n t' H. destruct (decide (n = Merger.tag_name t)) as [->|Hne].
      * rewrite lookup_insert_eq in H. injection H as <-. reflexivity.
      * rewrite lookup_insert_ne in H by congruence. exact (Hkey _ _ H).
    + intros n. rewrite elem_of_app, list_elem_of_singleton, <- Hdom.
      destruct (decide (n = Merger.tag_name t)) as [->|Hne].
      * rewrite lookup_insert_eq. split; [intros _; right; reflexivity|intros _; eexists; reflexivity].
      * rewrite lookup_insert_ne by congruence. split; [intros H; left; exact H|].
        intros [H|H]; [exact H|contradiction].
    + intros n Hn. apply elem_of_app. left. exact Hn.
Qed.

(** The tag loop of [Merger::merge] never produces two tags with the same
    name: started from a tag list and [seen_tags] that agree (as the empty
    ones of a new merge do), it keeps them in agreement, and a tag name
    once in the list stays there. *)
Theorem tag_loop_no_duplicate_names (cfg : Merger.MergerConfig) (ctx : Merger.ServiceCtx)
  (tags : list Merger.Tag) (st : Merger.MergeState)
  (H : tags_consistent (Merger.m_tags st) (Merger.seen_tags st)) :
  let st' := fold_left (Merger.merge_tag cfg ctx) tags st in
  tags_consistent (Merger.m_tags st') (Merger.seen_tags st') /\
  NoDup (Merger.tag_name <$> Merger.m_tags st') /\
  (forall n, n ∈ Merger.tag_name <$> Merger.m_tags st -> n ∈ Merger.tag_name <$> Merger.m_tags st').
Proof.
  cbv zeta. revert st H. induction tags as [|tg tags IH]; intros st H.
  - split; [exact H|]. split; [exact (proj1 H)|auto].
  - cbn [fold_left]. destruct (merge_tag_consistent cfg ctx st tg H) as [H1 H2].
    destruct (IH _ H1) as (I1 & I2 & I3). split; [exact I1|]. split; [exact I2|auto].
Qed.

Lemma tag_loop_no_duplicate_names_witness :
  NoDup (Merger.tag_name <$> Merger.m_tags
    (fold_left (Merger.merge_tag default_merger_config error_strategy_ctx)
       [{| Merger.tag_name := "pets"; Merger.tag_description := None; Merger.tag_extensions := ∅ |};
        {| Merger.tag_name := "pets"; Merger.tag_description := Some "Pets";
           Merger.tag_extensions := ∅ |}]
       Merger.init_state)).
Proof.
  assert (H0 : tags_consistent (Merger.m_tags Merger.init_state) (Merger.seen_tags Merger.init_state)).
  { cbn [Merger.init_state Merger.m_tags Merger.seen_tags]. split; [constructor|]. split.
    - intros n t H. rewrite lookup_empty in H. discriminate.
    - intros n. rewrite lookup_empty. split; [intros [x Hx]; discriminate|intros Hn].
      apply elem_of_nil in Hn. contradiction. }
  exact (proj1 (proj2 (tag_loop_no_duplicate_names default_merger_config error_strategy_ctx _ _ H0))).
Defined.

(** ** [merger/mod.rs]: the [Skip] strategy on paths *)

Lemma apply_to_op_m_paths (a b c : string) (op : option Merger.Operation) (st : Merger.MergeState) :
  Merger.m_paths (snd (Merger.apply_to_op a b c op st)) = Merger.m_paths st.
Proof.
  unfold Merger.apply_to_op.
  destruct op as [o|]; [|reflexivity].
  destruct (Merger.operation_id o); [|reflexivity].
  destruct (Merger.seen_operation_ids st !! _); reflexivity.
Qed.

Lemma insert_prefixed_path_m_paths ctx st p it q :
  q <> p -> Merger.m_paths (Merger.insert_prefixed_path ctx st p it) !! q = Merger.m_paths st !! q.
Proof.
  intros Hq. unfold Merger.insert_prefixed_path, Merger.apply_operation_prefixes. cbv zeta.
  set (a := Merger.ctx_operation_id_prefix ctx). set (b := Merger.ctx_tag_prefix ctx).
  set (c := Merger.ctx_service_name ctx).
  repeat match goal with
         | |- context [Merger.apply_to_op a b c ?o ?s] =>
             let E := fresh "E" in
             pose proof (apply_to_op_m_paths a b c o s) as E;
             destruct (Merger.apply_to_op a b c o s); cbn [snd] in E
         end.
  cbn [Merger.insert_path Merger.m_paths]. rewrite lookup_insert_ne by congruence. congruence.
Qed.

(** Under the [Skip] conflict strategy the path loop of [Merger::merge]
    never fails, and a path already taken by an earlier service keeps its
    item and its owner: the first service to claim a path wins. *)
Theorem merge_paths_skip (ctx : Merger.ServiceCtx) (st : Merger.MergeState)
  (l : list (string * Merger.PathItem)) (Hs : Merger.ctx_strategy ctx = Skip) :
  exists st', Merger.fold_result (Merger.merge_path ctx) st l = Ok st' /\
    forall q, is_Some (Merger.seen_paths st !! q) ->
      Merger.m_paths st' !! q = Merger.m_paths st !! q /\
      Merger.seen_paths st' !! q = Merger.seen_paths st !! q.
Proof.
  revert st. induction l as [|[p it] l IH]; intros st.
  - exists st. split; [reflexivity|auto].
  - cbn [Merger.fold_result]. unfold Merger.merge_path at 1.
    destruct (Merger.seen_paths st !! p) as [ex|] eqn:Ep.
    + rewrite Hs. cbv zeta.
      match goal with |- context [Merger.fold_result _ (Merger.push_conflict st ?c) l] =>
        destruct (IH (Merger.push_conflict st c)) as [st' [Hf Hk]] end.
      exists st'. split; [exact Hf|]. exact Hk.
    + destruct (IH (Merger.insert_prefixed_path ctx st p it)) as [st' [Hf Hk]].
      exists st'. split; [exact Hf|]. intros q Hq.
      assert (Hne : q <> p) by (intros ->; rewrite Ep in Hq; destruct Hq; discriminate).
      assert (Hseen : Merger.seen_paths (Merger.insert_prefixed_path ctx st p it) !! q =
                      Merger.seen_paths st !! q).
      { rewrite insert_prefixed_path_seen_paths. apply lookup_insert_ne. congruence. }
      rewrite <- Hseen in Hq. destruct (Hk q Hq) as [H1 H2].
      rewrite H1, H2, Hseen, insert_prefixed_path_m_paths by exact Hne. split; reflexivity.
Qed.

Definition skip_ctx : Merger.ServiceCtx :=
  {| Merger.ctx_service_name := "svc"; Merger.ctx_strategy := Skip;
     Merger.ctx_component_prefix := "svc"; Merger.ctx_tag_prefix := "svc";
     Merger.ctx_operation_id_prefix := "svc" |}.

Lemma merge_paths_skip_witness :
  exists st', Merger.fold_result (Merger.merge_path skip_ctx) Merger.init_state
                [("/a", path_item_with_get None); ("/a", path_item_with_get None)] = Ok st' /\
    forall q, is_Some (Merger.seen_paths Merger.init_state !! q) ->
      Merger.m_paths st' !! q = Merger.m_paths Merger.init_state !! q /\
      Merger.seen_paths st' !! q = Merger.seen_paths Merger.init_state !! q.
Proof.
  exact (merge_paths_skip skip_ctx Merger.init_state
           [("/a", path_item_with_get None); ("/a", path_item_with_get None)] eq_refl).
Defined.
